(** * TrustFrame: sequence alignment, Hamming similarity and hashing
    Shallow embedding of [src/trustframe/comparator.py] ([VideoComparator]),
    of the alignment display and statistics of [analyze] in
    [src/trustframe/cli.py], of [PerceptualHasher] in
    [src/trustframe/perceptual.py] and of [CryptoHasher] in
    [src/trustframe/crypto.py]. *)

From Stdlib Require Import Arith Lia List Bool ZArith QArith String Ascii.
From Stdlib Require Import Floats.SpecFloat Lqa.
Import ListNotations.

Open Scope nat_scope.

(** ** Data model *)

(** A frame hash record [{'frame_number': ..., 'hash': ...}] as produced by
    [PerceptualHasher]. *)
Record frame_hash := mk_frame_hash {
  frame_number : nat;
  hash : string
}.

(** The four values of [op['type']]. *)
Inductive op_type := Match | Substitution | Deletion | Insertion.

(** An alignment operation dictionary; [None] stands for Python's [None]. *)
Record op := mk_op {
  type : op_type;
  ref_frame : option nat;
  ev_frame : option nat;
  ref_hash : option string;
  ev_hash : option string
}.

Definition default_fh : frame_hash := mk_frame_hash 0 EmptyString.

(** Python's [l[k]] for an index known to be in range. *)
Definition at_ {A} (d : A) (l : list A) (k : nat) : A := nth k l d.

(** ** The dynamic-programming table of [align_sequences] *)

(** One cell of the fill loop, [i, j >= 1]:
    [dp[i][j] = dp[i-1][j-1]] if the hashes are equal, else
    [1 + min(dp[i-1][j], dp[i][j-1], dp[i-1][j-1])]. *)
Definition cell (a b : string) (diag up left : nat) : nat :=
  if String.eqb a b then diag else 1 + Nat.min (Nat.min up left) diag.

(** The inner loop [for j in range(1, n + 1)] for a fixed row [i]:
    [prev] is row [i-1] from column [j-1] on, [left] is [dp[i][j-1]]. *)
Fixpoint fill_row (a : string) (bs : list string) (prev : list nat) (left : nat)
  : list nat :=
  match bs, prev with
  | b :: bs', diag :: ((up :: _) as prev') =>
      let v := cell a b diag up left in
      v :: fill_row a bs' prev' v
  | _, _ => []
  end.

(** The outer loop [for i in range(1, m + 1)]: row [i] starts with
    [dp[i][0] = i] and is filled from row [i-1]. *)
Fixpoint fill_rows (ev_seq : list string) (as_ : list string) (i : nat)
  (prev : list nat) : list (list nat) :=
  match as_ with
  | [] => []
  | a :: as' =>
      let row := S i :: fill_row a ev_seq prev (S i) in
      row :: fill_rows ev_seq as' (S i) row
  end.

(** The whole table; row [0] is [dp[0][j] = j]. *)
Definition dp_table (ref_seq ev_seq : list string) : list (list nat) :=
  let row0 := seq 0 (S (List.length ev_seq)) in
  row0 :: fill_rows ev_seq ref_seq 0 row0.

(** [dp[i][j]]. *)
Definition get (dp : list (list nat)) (i j : nat) : nat := nth j (nth i dp []) 0.

(** ** The backtracking loop *)

Section Backtrack.

Variables ref_hashes ev_hashes : list frame_hash.

Definition ref_seq : list string := map hash ref_hashes.
Definition ev_seq : list string := map hash ev_hashes.
Definition dp : list (list nat) := dp_table ref_seq ev_seq.

(** One iteration of [while i > 0 or j > 0]: the operation appended and
    the new [(i, j)], or [None] when no branch applies (the Python loop
    would then spin forever on the same [(i, j)]). *)
Definition step (i j : nat) : option (op * nat * nat) :=
  if (0 <? i) && (0 <? j)
     && String.eqb (at_ EmptyString ref_seq (i - 1)) (at_ EmptyString ev_seq (j - 1)) then
    Some (mk_op Match
            (Some (frame_number (at_ default_fh ref_hashes (i - 1))))
            (Some (frame_number (at_ default_fh ev_hashes (j - 1))))
            (Some (at_ EmptyString ref_seq (i - 1))) (Some (at_ EmptyString ev_seq (j - 1))),
          i - 1, j - 1)
  else if (0 <? i) && (0 <? j)
          && (get dp i j =? get dp (i - 1) (j - 1) + 1) then
    Some (mk_op Substitution
            (Some (frame_number (at_ default_fh ref_hashes (i - 1))))
            (Some (frame_number (at_ default_fh ev_hashes (j - 1))))
            (Some (at_ EmptyString ref_seq (i - 1))) (Some (at_ EmptyString ev_seq (j - 1))),
          i - 1, j - 1)
  else if (0 <? i) && (get dp i j =? get dp (i - 1) j + 1) then
    Some (mk_op Deletion
            (Some (frame_number (at_ default_fh ref_hashes (i - 1))))
            None (Some (at_ EmptyString ref_seq (i - 1))) None,
          i - 1, j)
  else if (0 <? j) && (get dp i j =? get dp i (j - 1) + 1) then
    Some (mk_op Insertion
            None (Some (frame_number (at_ default_fh ev_hashes (j - 1))))
            None (Some (at_ EmptyString ev_seq (j - 1))),
          i, j - 1)
  else None.

(** The [while] loop, [alignment.append(...)] being [acc ++ [o]].  Every
    branch of [step] lowers [i + j], so [i + j] iterations are all the loop
    can take; [None] means the loop did not finish, i.e. it got stuck. *)
Fixpoint backtrack (fuel i j : nat) (acc : list op) : option (list op) :=
  if (0 <? i) || (0 <? j) then
    match fuel with
    | 0 => None
    | S fuel' =>
        match step i j with
        | Some (o, i', j') => backtrack fuel' i' j' (acc ++ [o])
        | None => None
        end
    end
  else Some acc.

(** [align_sequences(ref_hashes, ev_hashes)]: [(alignment, dp[m][n])]
    after [alignment.reverse()]. *)
Definition align_sequences : option (list op * nat) :=
  let m := List.length ref_seq in
  let n := List.length ev_seq in
  match backtrack (m + n) m n [] with
  | Some acc => Some (rev acc, get dp m n)
  | None => None
  end.

End Backtrack.

(** ** [analyze_differences] *)

Record stats := mk_stats {
  matches : nat;
  substitutions : nat;
  insertions : nat;
  deletions : nat;
  total_operations : nat
}.

(** [stats[plural_map[op['type']]] += 1]. *)
Definition bump (s : stats) (t : op_type) : stats :=
  match t with
  | Match => mk_stats (S (matches s)) (substitutions s) (insertions s) (deletions s) (total_operations s)
  | Substitution => mk_stats (matches s) (S (substitutions s)) (insertions s) (deletions s) (total_operations s)
  | Insertion => mk_stats (matches s) (substitutions s) (S (insertions s)) (deletions s) (total_operations s)
  | Deletion => mk_stats (matches s) (substitutions s) (insertions s) (S (deletions s)) (total_operations s)
  end.

Definition analyze_differences (alignment : list op) : stats :=
  fold_left (fun s o => bump s (type o)) alignment
    (mk_stats 0 0 0 0 (List.length alignment)).

(** ** [calculate_hamming_distance] *)

(** Characters [str.strip] removes inside [int(s, 16)] (the ASCII ones
    [str.isspace] accepts). *)
Definition is_space (c : ascii) : bool :=
  let k := nat_of_ascii c in (9 <=? k) && (k <=? 13) || (28 <=? k) && (k <=? 32).

Fixpoint drop_space (l : list ascii) : list ascii :=
  match l with
  | c :: l' => if is_space c then drop_space l' else l
  | [] => []
  end.

Definition strip (l : list ascii) : list ascii := rev (drop_space (rev (drop_space l))).

(** Value of a base-16 digit, either letter case. *)
Definition hex_val (c : ascii) : option Z :=
  let k := nat_of_ascii c in
  if (48 <=? k) && (k <=? 57) then Some (Z.of_nat (k - 48))
  else if (97 <=? k) && (k <=? 102) then Some (Z.of_nat (k - 87))
  else if (65 <=? k) && (k <=? 70) then Some (Z.of_nat (k - 55))
  else None.

(** A run of [(["_"] hexdigit)*], Python's digit grammar. *)
Fixpoint hex_digits (l : list ascii) : option (list Z) :=
  match l with
  | [] => Some []
  | c :: l' =>
      if Ascii.eqb c "_"%char then
        match l' with
        | d :: l'' =>
            match hex_val d, hex_digits l'' with
            | Some v, Some ds => Some (v :: ds)
            | _, _ => None
            end
        | [] => None
        end
      else
        match hex_val c, hex_digits l' with
        | Some v, Some ds => Some (v :: ds)
        | _, _ => None
        end
  end.

Definition horner (ds : list Z) : Z := fold_left (fun acc d => (acc * 16 + d)%Z) ds 0%Z.

(** The unsigned part of [int(s, 16)]: an optional [0x]/[0X] prefix, then
    at least one digit; without the prefix the first character is a digit. *)
Definition parse_magnitude (l : list ascii) : option Z :=
  match l with
  | "0"%char :: x :: r =>
      if Ascii.eqb x "x"%char || Ascii.eqb x "X"%char then
        match hex_digits r with
        | Some ((_ :: _) as ds) => Some (horner ds)
        | _ => None
        end
      else
        match hex_digits l with
        | Some ds => Some (horner ds)
        | None => None
        end
  | c :: _ =>
      match hex_val c, hex_digits l with
      | Some _, Some ds => Some (horner ds)
      | _, _ => None
      end
  | [] => None
  end.

(** The optional sign of [int(s, 16)]. *)
Definition parse_signed (l : list ascii) : option Z :=
  match l with
  | "-"%char :: r => option_map Z.opp (parse_magnitude r)
  | "+"%char :: r => parse_magnitude r
  | l => parse_magnitude l
  end.

(** [int(s, 16)]; [None] is the [ValueError]. *)
Definition int16 (s : string) : option Z :=
  parse_signed (strip (list_ascii_of_string s)).

(** Number of one bits of a positive number. *)
Fixpoint pos_popcount (p : positive) : nat :=
  match p with
  | xH => 1
  | xO p' => pos_popcount p'
  | xI p' => S (pos_popcount p')
  end.

(** [bin(x).count('1')]: [bin] prints [-0b...] for a negative [x]. *)
Definition bin_count_ones (x : Z) : nat :=
  match x with
  | Z0 => 0
  | Zpos p | Zneg p => pos_popcount p
  end.

Record hamming_result := mk_hamming_result {
  hamming_distance : nat;
  max_bits : nat;
  similarity_percentage : Q
}.

(** [calculate_hamming_distance(hash1, hash2)]; [None] is Python's [None].
    The float [similarity] is kept as the exact rational it approximates. *)
Definition calculate_hamming_distance (hash1 hash2 : string) : option hamming_result :=
  if (String.length hash1 =? 0) || (String.length hash2 =? 0) then None
  else if negb (String.length hash1 =? String.length hash2) then None
  else
    match int16 hash1, int16 hash2 with
    | Some int1, Some int2 =>
        let xor_result := Z.lxor int1 int2 in
        let hd := bin_count_ones xor_result in
        let mb := String.length hash1 * 4 in
        let similarity :=
          ((inject_Z (Z.of_nat mb - Z.of_nat hd) / inject_Z (Z.of_nat mb)) * 100)%Q in
        Some (mk_hamming_result hd mb similarity)
    | _, _ => None
    end.

(** Lowercase hexadecimal digits, the form [imagehash] prints. *)
Definition lower_hex_char (c : ascii) : bool :=
  let k := nat_of_ascii c in (48 <=? k) && (k <=? 57) || (97 <=? k) && (k <=? 102).

Definition lower_hex_token (s : string) : bool :=
  forallb lower_hex_char (list_ascii_of_string s).

(** The lowercase digit of a value below 16. *)
Definition digit_char (v : Z) : ascii :=
  nth (Z.to_nat v) (list_ascii_of_string "0123456789abcdef"%string) "?"%char.

(** What [int(s, 16)] needs to know of a lowercase digit, as one test. *)
Definition lower_char_facts (c : ascii) : bool :=
  implb (lower_hex_char c)
    (negb (is_space c) && negb (Ascii.eqb c "_"%char) && negb (Ascii.eqb c "x"%char)
     && negb (Ascii.eqb c "X"%char)
     && match hex_val c with
        | Some v => (0 <=? v)%Z && (v <? 16)%Z && Ascii.eqb (digit_char v) c
        | None => false
        end).

(** ** Similarity scores of [analyze] (cli.py) *)

(** The loop filling [similarity_scores] and [substitution_similarities];
    [hash_or_empty] stands for the [op['ref_hash']] passed on (never [None]
    for a substitution of [align_sequences]). *)
Definition hash_or_empty (h : option string) : string :=
  match h with Some s => s | None => EmptyString end.

Definition score_step (acc : list Q * list Q) (o : op) : list Q * list Q :=
  let (similarity_scores, substitution_similarities) := acc in
  match type o with
  | Match => (similarity_scores ++ [100%Q], substitution_similarities)
  | Insertion | Deletion => (similarity_scores ++ [0%Q], substitution_similarities)
  | Substitution =>
      match calculate_hamming_distance (hash_or_empty (ref_hash o))
              (hash_or_empty (ev_hash o)) with
      | Some r =>
          (similarity_scores ++ [similarity_percentage r],
           substitution_similarities ++ [similarity_percentage r])
      | None => (similarity_scores ++ [0%Q], substitution_similarities)
      end
  end.

Definition similarity_scores (alignment : list op) : list Q * list Q :=
  fold_left score_step alignment ([], []).

Definition Qsum (l : list Q) : Q := fold_right Qplus 0%Q l.

(** [avg_similarity]. *)
Definition avg_similarity (alignment : list op) : Q :=
  let s := fst (similarity_scores alignment) in
  match s with
  | [] => 0%Q
  | _ => (Qsum s / inject_Z (Z.of_nat (List.length s)))%Q
  end.

(** ** The recurrence the table stores *)

(** [lev ra rb i j] is [dp[i][j]] written as the recurrence itself. *)
Fixpoint lev (ra rb : list string) (i : nat) : nat -> nat :=
  match i with
  | 0 => fun j => j
  | S i' =>
      fix Dj (j : nat) : nat :=
        match j with
        | 0 => S i'
        | S j' => cell (nth i' ra EmptyString) (nth j' rb EmptyString)
                       (lev ra rb i' j') (lev ra rb i' (S j')) (Dj j')
        end
  end.

(** ** The backtracking trace *)

(** The operations the loop appends, from [(i, j)] down to [(0, 0)]. *)
Inductive trace (ref_hashes ev_hashes : list frame_hash) : nat -> nat -> list op -> Prop :=
| trace_done : trace ref_hashes ev_hashes 0 0 []
| trace_step i j o i' j' ops :
    (0 < i \/ 0 < j) ->
    step ref_hashes ev_hashes i j = Some (o, i', j') ->
    trace ref_hashes ev_hashes i' j' ops -> trace ref_hashes ev_hashes i j (o :: ops).

(** ** Reading an alignment back *)

Definition side (h : option string) : list string :=
  match h with Some x => [x] | None => [] end.

(** The reference-side token of an operation that is not an insertion,
    and so on for the other three combinations. *)
Definition ref_tok_nonins (o : op) : option string :=
  match type o with Insertion => None | _ => ref_hash o end.
Definition ref_tok_nondel (o : op) : option string :=
  match type o with Deletion => None | _ => ref_hash o end.
Definition ev_tok_nondel (o : op) : option string :=
  match type o with Deletion => None | _ => ev_hash o end.
Definition ev_tok_nonins (o : op) : option string :=
  match type o with Insertion => None | _ => ev_hash o end.

Definition tokens (f : op -> option string) (al : list op) : list string :=
  flat_map (fun o => side (f o)) al.

(** Operations that cost one: all but [Match]. *)
Definition is_edit (o : op) : bool :=
  match type o with Match => false | _ => true end.

Definition cost (al : list op) : nat := List.length (filter is_edit al).

(** The hash fields an operation of each type carries. *)
Definition shape_ok (o : op) : Prop :=
  match type o with
  | Match => exists a, ref_hash o = Some a /\ ev_hash o = Some a
  | Substitution => exists a b, ref_hash o = Some a /\ ev_hash o = Some b
  | Deletion => exists a, ref_hash o = Some a /\ ev_hash o = None
  | Insertion => exists b, ref_hash o = None /\ ev_hash o = Some b
  end.

(** An edit script turning the token sequence [ra] into [rb]: a match
    keeps a token, a substitution replaces one, a deletion drops one of
    [ra], an insertion adds one of [rb]. *)
Definition edit_script (ra rb : list string) (al : list op) : Prop :=
  Forall shape_ok al /\ tokens ref_tok_nonins al = ra /\ tokens ev_tok_nondel al = rb.

(** An operation of an alignment of [A] and [B] with its fields taken from
    elements of the two sequences. *)
Definition op_wf (A B : list frame_hash) (o : op) : Prop :=
  match type o with
  | Match =>
      exists ea eb, In ea A /\ In eb B
        /\ ref_frame o = Some (frame_number ea) /\ ev_frame o = Some (frame_number eb)
        /\ ref_hash o = Some (hash ea) /\ ev_hash o = Some (hash eb) /\ hash ea = hash eb
  | Substitution =>
      exists ea eb, In ea A /\ In eb B
        /\ ref_frame o = Some (frame_number ea) /\ ev_frame o = Some (frame_number eb)
        /\ ref_hash o = Some (hash ea) /\ ev_hash o = Some (hash eb) /\ hash ea <> hash eb
  | Deletion =>
      exists ea, In ea A
        /\ ref_frame o = Some (frame_number ea) /\ ref_hash o = Some (hash ea)
        /\ ev_frame o = None /\ ev_hash o = None
  | Insertion =>
      exists eb, In eb B
        /\ ref_frame o = None /\ ref_hash o = None
        /\ ev_frame o = Some (frame_number eb) /\ ev_hash o = Some (hash eb)
  end.

(** ** The backtracking as the spec words it (section 4.2, step 4)

    Read against the table of steps 1 and 2 ([lev]): (a) match, (b)
    substitution, (c) deletion, (d) otherwise insertion. *)

Definition spec_backtrack_step (A B : list frame_hash) (i j : nat) : op * nat * nat :=
  let table := lev (map hash A) (map hash B) in
  let a := at_ default_fh A (i - 1) in
  let b := at_ default_fh B (j - 1) in
  if (0 <? i) && (0 <? j) && String.eqb (hash a) (hash b) then
    (mk_op Match (Some (frame_number a)) (Some (frame_number b))
       (Some (hash a)) (Some (hash b)), i - 1, j - 1)
  else if (0 <? i) && (0 <? j) && (table i j =? table (i - 1) (j - 1) + 1) then
    (mk_op Substitution (Some (frame_number a)) (Some (frame_number b))
       (Some (hash a)) (Some (hash b)), i - 1, j - 1)
  else if (0 <? i) && (table i j =? table (i - 1) j + 1) then
    (mk_op Deletion (Some (frame_number a)) None (Some (hash a)) None, i - 1, j)
  else
    (mk_op Insertion None (Some (frame_number b)) None (Some (hash b)), i, j - 1).

(** Operations emitted from [(i, j)] until [(0, 0)]. *)
Fixpoint spec_backtrack (A B : list frame_hash) (fuel i j : nat) : list op :=
  match fuel with
  | 0 => []
  | S fuel' =>
      if (i =? 0) && (j =? 0) then []
      else
        let '(o, i', j') := spec_backtrack_step A B i j in
        o :: spec_backtrack A B fuel' i' j'
  end.

(** Steps 3 to 5: the edit distance and the reversed operation list. *)
Definition spec_align (A B : list frame_hash) : list op * nat :=
  let m := List.length A in
  let n := List.length B in
  (rev (spec_backtrack A B (m + n) m n), lev (map hash A) (map hash B) m n).

(** ** The score of one operation in [analyze] *)

Definition op_score (o : op) : Q :=
  match type o with
  | Match => 100
  | Insertion | Deletion => 0
  | Substitution =>
      match calculate_hamming_distance (hash_or_empty (ref_hash o))
              (hash_or_empty (ev_hash o)) with
      | Some r => similarity_percentage r
      | None => 0
      end
  end.

Definition sub_score (o : op) : list Q :=
  match type o with
  | Substitution =>
      match calculate_hamming_distance (hash_or_empty (ref_hash o))
              (hash_or_empty (ev_hash o)) with
      | Some r => [similarity_percentage r]
      | None => []
      end
  | _ => []
  end.

(** ** [find_longest_common_subsequence] (comparator.py)

    The elements are compared with [==]; in this program they are the hash
    strings of the frames, as in [align_sequences]. *)

(** One cell, [i, j >= 1]: [dp[i-1][j-1] + 1] on equal elements, else
    [max(dp[i-1][j], dp[i][j-1])]. *)
Definition lcs_cell (a b : string) (diag up left : nat) : nat :=
  if String.eqb a b then diag + 1 else Nat.max up left.

(** The inner loop [for j in range(1, n + 1)] of row [i]. *)
Fixpoint lcs_fill_row (a : string) (bs : list string) (prev : list nat) (left : nat)
  : list nat :=
  match bs, prev with
  | b :: bs', diag :: ((up :: _) as prev') =>
      let v := lcs_cell a b diag up left in
      v :: lcs_fill_row a bs' prev' v
  | _, _ => []
  end.

(** The outer loop; column 0 keeps the [0] of the initialisation. *)
Fixpoint lcs_fill_rows (seq2 : list string) (as_ : list string) (prev : list nat)
  : list (list nat) :=
  match as_ with
  | [] => []
  | a :: as' =>
      let row := 0 :: lcs_fill_row a seq2 prev 0 in
      row :: lcs_fill_rows seq2 as' row
  end.

(** [dp = [[0] * (n + 1) for _ in range(m + 1)]], then filled. *)
Definition lcs_table (seq1 seq2 : list string) : list (list nat) :=
  let row0 := repeat 0 (S (List.length seq2)) in
  row0 :: lcs_fill_rows seq2 seq1 row0.

(** [find_longest_common_subsequence(seq1, seq2)]: [dp[m][n]]. *)
Definition find_longest_common_subsequence (seq1 seq2 : list string) : nat :=
  get (lcs_table seq1 seq2) (List.length seq1) (List.length seq2).

(** [lcs_rec ra rb i j] is [dp[i][j]] written as the recurrence itself. *)
Fixpoint lcs_rec (ra rb : list string) (i : nat) : nat -> nat :=
  match i with
  | 0 => fun _ => 0
  | S i' =>
      fix Lj (j : nat) : nat :=
        match j with
        | 0 => 0
        | S j' => lcs_cell (nth i' ra EmptyString) (nth j' rb EmptyString)
                           (lcs_rec ra rb i' j') (lcs_rec ra rb i' (S j')) (Lj j')
        end
  end.

(** [s] is a subsequence of [l]: [l] with some elements left out. *)
Inductive subseq {X : Type} : list X -> list X -> Prop :=
| subseq_nil : subseq [] []
| subseq_take x s l : subseq s l -> subseq (x :: s) (x :: l)
| subseq_skip x s l : subseq s l -> subseq s (x :: l).

(** ** The detailed alignment table of [analyze] (cli.py) *)

(** Decimal digits of [str(k)] for an [int] [k >= 0]. *)
Fixpoint uint_digits (d : Decimal.uint) : string :=
  match d with
  | Decimal.Nil => EmptyString
  | Decimal.D0 d => String "0"%char (uint_digits d)
  | Decimal.D1 d => String "1"%char (uint_digits d)
  | Decimal.D2 d => String "2"%char (uint_digits d)
  | Decimal.D3 d => String "3"%char (uint_digits d)
  | Decimal.D4 d => String "4"%char (uint_digits d)
  | Decimal.D5 d => String "5"%char (uint_digits d)
  | Decimal.D6 d => String "6"%char (uint_digits d)
  | Decimal.D7 d => String "7"%char (uint_digits d)
  | Decimal.D8 d => String "8"%char (uint_digits d)
  | Decimal.D9 d => String "9"%char (uint_digits d)
  end.

Definition str_nat (k : nat) : string := uint_digits (Nat.to_uint k).

(** [str(op['ref_frame']) if op['ref_frame'] else "---"]: [None] and [0]
    are falsy. *)
Definition frame_cell (x : option nat) : string :=
  match x with
  | Some k => if k =? 0 then "---"%string else str_nat k
  | None => "---"%string
  end.

(** [op['ref_hash'] if op['ref_hash'] else "---"]: [None] and [""] are
    falsy. *)
Definition hash_cell (h : option string) : string :=
  match h with
  | Some s => if String.eqb s EmptyString then "---"%string else s
  | None => "---"%string
  end.

(** The frame and hash columns of one row. *)
Record row_cells := mk_row_cells {
  ref_frame_col : string;
  ev_frame_col : string;
  ref_hash_col : string;
  ev_hash_col : string
}.

(** The rows of [enumerate(alignment[:10])]. *)
Definition alignment_rows (alignment : list op) : list row_cells :=
  map (fun o => mk_row_cells (frame_cell (ref_frame o)) (frame_cell (ev_frame o))
                             (hash_cell (ref_hash o)) (hash_cell (ev_hash o)))
      (firstn 10 alignment).

(** The count of [... and {len(alignment) - 10} more operations], if
    printed. *)
Definition more_operations (alignment : list op) : option nat :=
  if 10 <? List.length alignment then Some (List.length alignment - 10) else None.

(** ** The statistics of [analyze] (cli.py) *)

(** Python's [x < y] on the scores. *)
Definition Qlt_bool (x y : Q) : bool := negb (Qle_bool y x).

(** [min(l)] and [max(l)] of a non-empty list: the first element, replaced
    by each later one that is smaller (larger). *)
Definition py_min (x : Q) (r : list Q) : Q :=
  fold_left (fun best y => if Qlt_bool y best then y else best) r x.
Definition py_max (x : Q) (r : list Q) : Q :=
  fold_left (fun best y => if Qlt_bool best y then y else best) r x.

Definition min_similarity (alignment : list op) : Q :=
  match fst (similarity_scores alignment) with
  | [] => 0%Q
  | x :: r => py_min x r
  end.

Definition max_similarity (alignment : list op) : Q :=
  match fst (similarity_scores alignment) with
  | [] => 0%Q
  | x :: r => py_max x r
  end.

Definition avg_substitution_similarity (alignment : list op) : Q :=
  let s := snd (similarity_scores alignment) in
  match s with
  | [] => 0%Q
  | _ => (Qsum s / inject_Z (Z.of_nat (List.length s)))%Q
  end.

(** [sum(1 for s in similarity_scores if ...)] for the three ranges. *)
Definition high_similarity (alignment : list op) : nat :=
  List.length (filter (fun s => Qle_bool 80 s) (fst (similarity_scores alignment))).
Definition medium_similarity (alignment : list op) : nat :=
  List.length (filter (fun s => Qle_bool 50 s && Qlt_bool s 80)
                 (fst (similarity_scores alignment))).
Definition low_similarity (alignment : list op) : nat :=
  List.length (filter (fun s => Qlt_bool s 50) (fst (similarity_scores alignment))).

(** ** Python errors and floats (perceptual.py, crypto.py) *)

Inductive py_error := FileNotFoundError | ValueError | ZeroDivisionError | OverflowError.

Inductive result (A : Type) :=
| Ok (a : A)
| Err (e : py_error).
Arguments Ok {A} a.
Arguments Err {A} e.

(** Python floats are IEEE binary64: [prec = 53], [emax = 1024]. *)
Definition float := spec_float.

(** [float(z)] of an [int], rounded to nearest even. *)
Definition float_of_int (z : Z) : result float :=
  match binary_normalize 53 1024 z 0 false with
  | S754_infinity _ => Err OverflowError
  | f => Ok f
  end.

(** [a / b] on two [int]s: the exact quotient rounded to nearest even. *)
Definition int_truediv (a b : Z) : result float :=
  if (b =? 0)%Z then Err ZeroDivisionError
  else
    let s := xorb (a <? 0)%Z (b <? 0)%Z in
    match Z.abs a with
    | Z0 => Ok (S754_zero s)
    | ma =>
        let '(mz, ez, lz) := SFdiv_core_binary 53 1024 ma 0 (Z.abs b) 0 in
        match binary_round_aux 53 1024 s mz ez lz with
        | S754_infinity _ => Err OverflowError
        | f => Ok f
        end
    end.

(** [int(x)] of a float: truncation toward zero. *)
Definition float_to_int (f : float) : result Z :=
  match f with
  | S754_zero _ => Ok 0%Z
  | S754_finite s m e =>
      let v := if (0 <=? e)%Z then Z.shiftl (Zpos m) e else Z.shiftr (Zpos m) (- e) in
      Ok (if s then (- v)%Z else v)
  | S754_infinity _ => Err OverflowError
  | S754_nan => Err ValueError
  end.

(** [list(range(n))]. *)
Definition zrange (n : Z) : list Z := map Z.of_nat (seq 0 (Z.to_nat n)).

(** [[int(i * step) for i in range(k)]], [i * step] being
    [float(i) * step]. *)
Fixpoint scaled_indices (step : float) (idx_list : list Z) : result (list Z) :=
  match idx_list with
  | [] => Ok []
  | i :: r =>
      match float_of_int i with
      | Err e => Err e
      | Ok fi =>
          match float_to_int (SFmul 53 1024 fi step) with
          | Err e => Err e
          | Ok k =>
              match scaled_indices step r with
              | Err e => Err e
              | Ok ks => Ok (k :: ks)
              end
          end
      end
  end.

(** The choice of [frame_indices] in [extract_frames]. *)
Definition frame_indices (total_frames : Z) (target_frames : option Z) : result (list Z) :=
  match target_frames with
  | None => Ok (zrange total_frames)
  | Some t =>
      let frames_to_extract := Z.min t total_frames in
      if (frames_to_extract =? total_frames)%Z then Ok (zrange total_frames)
      else
        match int_truediv total_frames frames_to_extract with
        | Err e => Err e
        | Ok step => scaled_indices step (zrange frames_to_extract)
        end
  end.

(** ** [PerceptualHasher] (perceptual.py)

    A video file is seen through what the code asks of it: whether the
    path exists, whether OpenCV opens it, its [CAP_PROP_FRAME_COUNT] (after
    [int(...)]) and [CAP_PROP_FPS], and the frame [cap.read()] returns after
    seeking to a position, if any. *)

Section Perceptual.

Variable Image : Type.
(** [cv2.cvtColor(frame, cv2.COLOR_BGR2RGB)]. *)
Variable bgr_to_rgb : Image -> Image.
(** [str(self.hash_func(Image.fromarray(frame_data)))]. *)
Variable phash_str : Image -> string.

Record video := mk_video {
  video_path : string;
  path_exists : bool;
  is_opened : bool;
  frame_count : Z;
  video_fps : float;
  read_at : Z -> option Image
}.

Record frame := mk_frame {
  f_frame_number : Z;
  extracted_index : Z;
  frame_data : Image
}.

(** The [for i, frame_idx in enumerate(frame_indices)] loop: it stops at
    the first position [cap.read()] cannot read. *)
Fixpoint extract_loop (read : Z -> option Image) (i : Z) (idxs : list Z) : list frame :=
  match idxs with
  | [] => []
  | frame_idx :: r =>
      match read frame_idx with
      | None => []
      | Some fr =>
          mk_frame (frame_idx + 1) (i + 1) (bgr_to_rgb fr) :: extract_loop read (i + 1) r
      end
  end.

Definition extract_frames (v : video) (target_frames : option Z) : result (list frame) :=
  if negb (path_exists v) then Err FileNotFoundError
  else if negb (is_opened v) then Err ValueError
  else
    match frame_indices (frame_count v) target_frames with
    | Err e => Err e
    | Ok idxs => Ok (extract_loop (read_at v) 0 idxs)
    end.

Record frame_hash_info := mk_frame_hash_info {
  h_frame_number : Z;
  h_extracted_index : Z;
  h_hash : string
}.

Definition calculate_frame_hashes (frames : list frame) : list frame_hash_info :=
  map (fun f => mk_frame_hash_info (f_frame_number f) (extracted_index f)
                                   (phash_str (frame_data f))) frames.

(** [total_frames / fps if fps > 0 else 0]: a float or the [int] 0. *)
Inductive py_number := PyInt (z : Z) | PyFloat (f : float).

Record video_info := mk_video_info {
  total_frames : Z;
  fps : float;
  duration_seconds : py_number
}.

Definition get_video_info (v : video) : result video_info :=
  if negb (path_exists v) then Err FileNotFoundError
  else if negb (is_opened v) then Err ValueError
  else
    let tf := frame_count v in
    let f := video_fps v in
    if SFltb (S754_zero false) f then
      match float_of_int tf with
      | Err e => Err e
      | Ok ftf => Ok (mk_video_info tf f (PyFloat (SFdiv 53 1024 ftf f)))
      end
    else Ok (mk_video_info tf f (PyInt 0)).

Record analysis := mk_analysis {
  analysis_path : string;
  analysis_info : video_info;
  extracted_frames : Z;
  frame_hashes : list frame_hash_info
}.

Definition analyze_video (v : video) (target_frames : option Z) : result analysis :=
  match get_video_info v with
  | Err e => Err e
  | Ok info =>
      match extract_frames v target_frames with
      | Err e => Err e
      | Ok frames =>
          Ok (mk_analysis (video_path v) info (Z.of_nat (List.length frames))
                (calculate_frame_hashes frames))
      end
  end.

End Perceptual.

Arguments mk_frame {Image}.
Arguments mk_video {Image}.

(** [target_frames = max_frames if max_frames else None] in [analyze]. *)
Definition target_of_max_frames (max_frames : option Z) : option Z :=
  match max_frames with
  | Some k => if (k =? 0)%Z then None else Some k
  | None => None
  end.

(** ** [CryptoHasher] (crypto.py) *)

Inductive CryptoAlgorithm := SHA256 | SHA384 | SHA512.

Section Crypto.

(** [hashlib.new(algorithm)]: a hasher's state is what it has been fed;
    [hexdigest()] is the algorithm's digest of those bytes. *)
Variable hexdigest : CryptoAlgorithm -> list Byte.byte -> string.

(** [iter(lambda: f.read(4096), b"")]: the blocks read from the current
    position; [fuel] bounds the number of reads. *)
Fixpoint read_blocks (fuel : nat) (rest : list Byte.byte) : list (list Byte.byte) :=
  match fuel with
  | 0 => []
  | S fuel' =>
      match firstn 4096 rest with
      | [] => []
      | byte_block => byte_block :: read_blocks fuel' (skipn (List.length byte_block) rest)
      end
  end.

(** The blocks of a file's content; each read before the last takes at
    least one byte, so [len + 1] reads are enough. *)
Definition file_blocks (content : list Byte.byte) : list (list Byte.byte) :=
  read_blocks (S (List.length content)) content.

(** [hasher.update(byte_block)] for each block. *)
Definition feed (blocks : list (list Byte.byte)) : list Byte.byte :=
  fold_left (fun fed byte_block => fed ++ byte_block) blocks [].

(** The sum of [progress.update(task, advance=len(byte_block))]. *)
Definition progress_advance (blocks : list (list Byte.byte)) : nat :=
  fold_left (fun adv byte_block => adv + List.length byte_block) blocks 0.

(** [CryptoHasher(algorithm).calculate_hash(file_path)]; [fs] gives the
    content of the file at a path, if it exists. *)
Definition calculate_hash (algorithm : CryptoAlgorithm)
  (fs : string -> option (list Byte.byte)) (file_path : string) : result string :=
  match fs file_path with
  | None => Err FileNotFoundError
  | Some content => Ok (hexdigest algorithm (feed (file_blocks content)))
  end.

End Crypto.

(** ** Frame numbers read back from an alignment *)

(** The [ref_frame] of an operation that is not an insertion, and the
    [ev_frame] of one that is not a deletion. *)
Definition ref_frame_nonins (o : op) : option nat :=
  match type o with Insertion => None | _ => ref_frame o end.
Definition ev_frame_nondel (o : op) : option nat :=
  match type o with Deletion => None | _ => ev_frame o end.

Definition frame_list (f : op -> option nat) (al : list op) : list nat :=
  flat_map (fun o => match f o with Some k => [k] | None => [] end) al.

(** ** Proofs *)

Lemma skipn_cons_inv {A} (l : list A) k b bs d :
  skipn k l = b :: bs -> nth k l d = b /\ skipn (S k) l = bs.
Proof.
  revert l; induction k as [|k IH]; intros [|c l] H; simpl in *;
    try discriminate; [now inversion H | now apply IH].
Qed.

Lemma nth_map_seq {A} (f : nat -> A) k len d :
  k < len -> nth k (map f (seq 0 len)) d = f k.
Proof.
  intros Hk.
  rewrite nth_indep with (d' := f 0) by (rewrite length_map, length_seq; exact Hk).
  rewrite map_nth, seq_nth by exact Hk. reflexivity.
Qed.

Lemma firstn_S_snoc {A} (l : list A) k d :
  k < List.length l -> firstn (S k) l = firstn k l ++ [nth k l d].
Proof.
  revert l; induction k as [|k IH]; intros [|x l] H; simpl in *; try lia; [reflexivity|].
  rewrite IH by lia. reflexivity.
Qed.

Lemma rev_firstn_pred {A} (l : list A) i d :
  0 < i -> i <= List.length l ->
  rev (firstn i l) = nth (i - 1) l d :: rev (firstn (i - 1) l).
Proof.
  intros H0 H. destruct i as [|i]; [lia|].
  rewrite firstn_S_snoc with (d := d) by lia. rewrite rev_app_distr.
  simpl. rewrite Nat.sub_0_r. reflexivity.
Qed.

Lemma rev_firstn_cons {A} (l : list A) i a r d :
  i <= List.length l -> a :: r = rev (firstn i l) ->
  exists i', i = S i' /\ a = nth i' l d /\ r = rev (firstn i' l).
Proof.
  intros Hi H. destruct i as [|i]; [discriminate|].
  rewrite (rev_firstn_pred l (S i) d) in H by lia. simpl in H. rewrite Nat.sub_0_r in H.
  injection H as -> ->. eauto.
Qed.

Lemma rev_firstn_nil {A} (l : list A) i :
  i <= List.length l -> [] = rev (firstn i l) -> i = 0.
Proof.
  intros Hi H. destruct i as [|i]; [reflexivity|].
  destruct l as [|x l]; simpl in *; [lia|].
  symmetry in H. apply app_eq_nil in H as [_ H]. discriminate.
Qed.

Lemma tokens_rev f al :
  tokens f (rev al) = rev (tokens f al).
Proof.
  unfold tokens. induction al as [|o al IH]; [reflexivity|].
  simpl. rewrite flat_map_app, IH, rev_app_distr. simpl. rewrite app_nil_r.
  destruct (f o); reflexivity.
Qed.

Lemma cost_rev al : cost (rev al) = cost al.
Proof.
  unfold cost. induction al as [|o al IH]; [reflexivity|].
  simpl. rewrite filter_app, length_app, IH. simpl.
  destruct (is_edit o); simpl; lia.
Qed.

Lemma fill_row_cons a b bs x y r left :
  fill_row a (b :: bs) (x :: y :: r) left
  = cell a b x y left :: fill_row a bs (y :: r) (cell a b x y left).
Proof. reflexivity. Qed.

Section Recurrence.

Variables ra rb : list string.

Local Abbreviation D := (lev ra rb).

Lemma D_0_j j : D 0 j = j.
Proof. reflexivity. Qed.

Lemma D_i_0 i : D i 0 = i.
Proof. destruct i; reflexivity. Qed.

Lemma D_S_S i j :
  D (S i) (S j) = cell (nth i ra EmptyString) (nth j rb EmptyString)
                       (D i j) (D i (S j)) (D (S i) j).
Proof. reflexivity. Qed.

Lemma fill_row_D i k bs :
  skipn k rb = bs ->
  fill_row (nth i ra EmptyString) bs (map (D i) (seq k (S (List.length bs)))) (D (S i) k)
  = map (D (S i)) (seq (S k) (List.length bs)).
Proof.
  revert k; induction bs as [|b bs IH]; intros k Hk; [reflexivity|].
  destruct (skipn_cons_inv _ _ _ _ EmptyString Hk) as [Hb Hbs].
  change (map (D i) (seq k (S (List.length (b :: bs)))))
    with (D i k :: D i (S k) :: map (D i) (seq (S (S k)) (List.length bs))).
  change (map (D (S i)) (seq (S k) (List.length (b :: bs))))
    with (D (S i) (S k) :: map (D (S i)) (seq (S (S k)) (List.length bs))).
  rewrite fill_row_cons.
  replace (cell (nth i ra EmptyString) b (D i k) (D i (S k)) (D (S i) k))
    with (D (S i) (S k)) by (rewrite D_S_S, Hb; reflexivity).
  f_equal. exact (IH (S k) Hbs).
Qed.

Lemma row_D i :
  S i :: fill_row (nth i ra EmptyString) rb (map (D i) (seq 0 (S (List.length rb)))) (S i)
  = map (D (S i)) (seq 0 (S (List.length rb))).
Proof.
  pose proof (fill_row_D i 0 rb eq_refl) as H.
  rewrite D_i_0 in H. rewrite H. reflexivity.
Qed.

Lemma fill_rows_D i as_ :
  skipn i ra = as_ ->
  fill_rows rb as_ i (map (D i) (seq 0 (S (List.length rb))))
  = map (fun i' => map (D i') (seq 0 (S (List.length rb)))) (seq (S i) (List.length as_)).
Proof.
  revert i; induction as_ as [|a as' IH]; intros i Hi; [reflexivity|].
  destruct (skipn_cons_inv _ _ _ _ EmptyString Hi) as [Ha Has].
  cbn [fill_rows]. rewrite <- Ha, row_D. cbn [List.length seq map].
  f_equal. exact (IH (S i) Has).
Qed.

Lemma dp_table_D :
  dp_table ra rb
  = map (fun i => map (D i) (seq 0 (S (List.length rb)))) (seq 0 (S (List.length ra))).
Proof.
  unfold dp_table.
  replace (seq 0 (S (List.length rb))) with (map (D 0) (seq 0 (S (List.length rb))))
    at 1 2 by apply map_id.
  rewrite (fill_rows_D 0 ra eq_refl). reflexivity.
Qed.

Lemma get_D i j :
  i <= List.length ra -> j <= List.length rb -> get (dp_table ra rb) i j = D i j.
Proof.
  intros Hi Hj. unfold get. rewrite dp_table_D.
  rewrite nth_map_seq by lia. rewrite nth_map_seq by lia. reflexivity.
Qed.

(** Neighbouring cells differ by at most one. *)

Ltac cell_at i j :=
  rewrite (D_S_S i j); unfold cell; destruct (String.eqb _ _).

Lemma D_sub i j : D (S i) (S j) <= D i j + 1.
Proof. cell_at i j; lia. Qed.

Lemma D_rows i :
  (forall j, D i j <= D i (S j) + 1) /\ (forall j, D (S i) j <= D i j + 1).
Proof.
  induction i as [|i [IHr IHd]].
  - split; [intros j; simpl; lia|].
    intros [|j]; [simpl; lia|]. cell_at 0 j; simpl; lia.
  - assert (Hr : forall j, D (S i) j <= D (S i) (S j) + 1).
    { intros j. specialize (IHr j). pose proof (IHd j). cell_at i j; lia. }
    split; [exact Hr|].
    intros [|j]; [rewrite !D_i_0; lia|]. specialize (Hr j). cell_at (S i) j; lia.
Qed.

Lemma D_cols j :
  (forall i, D i j <= D (S i) j + 1) /\ (forall i, D i (S j) <= D i j + 1).
Proof.
  induction j as [|j [IHc IHi]].
  - assert (Hc : forall i, D i 0 <= D (S i) 0 + 1) by (intros; rewrite !D_i_0; lia).
    split; [exact Hc|].
    intros [|i]; [simpl; lia|]. specialize (Hc i). cell_at i 0; lia.
  - assert (Hc : forall i, D i (S j) <= D (S i) (S j) + 1).
    { intros i. specialize (IHi i). pose proof (IHc i). cell_at i j; lia. }
    split; [exact Hc|].
    intros [|i]; [simpl; lia|]. specialize (Hc i). cell_at i (S j); lia.
Qed.

Lemma D_del i j : D (S i) j <= D i j + 1.
Proof. apply (proj2 (D_rows i)). Qed.

Lemma D_ins i j : D i (S j) <= D i j + 1.
Proof. apply (proj2 (D_cols j)). Qed.

Lemma D_match i j :
  nth i ra EmptyString = nth j rb EmptyString -> D (S i) (S j) = D i j.
Proof. intros H. rewrite D_S_S. unfold cell. rewrite H, String.eqb_refl. reflexivity. Qed.

Lemma D_mismatch i j :
  nth i ra EmptyString <> nth j rb EmptyString ->
  D (S i) (S j) = 1 + Nat.min (Nat.min (D i (S j)) (D (S i) j)) (D i j).
Proof.
  intros H. rewrite D_S_S. unfold cell.
  apply String.eqb_neq in H. rewrite H. reflexivity.
Qed.

(** No edit script costs less than the table entry. *)
Lemma lev_lower ops : forall i j,
  i <= List.length ra -> j <= List.length rb -> Forall shape_ok ops ->
  tokens ref_tok_nonins ops = rev (firstn i ra) ->
  tokens ev_tok_nondel ops = rev (firstn j rb) ->
  D i j <= cost ops.
Proof.
  induction ops as [|o ops IH]; intros i j Hi Hj Hs Hr He.
  - apply rev_firstn_nil in Hr; [|exact Hi]. apply rev_firstn_nil in He; [|exact Hj].
    subst. simpl. lia.
  - inversion Hs as [|? ? Ho Hs']; subst.
    unfold tokens, ref_tok_nonins, ev_tok_nondel in Hr, He. cbn [flat_map] in Hr, He.
    unfold shape_ok in Ho. unfold cost. cbn [filter]. unfold is_edit at 1.
    destruct (type o).
    + destruct Ho as [a [Hra Hea]]. rewrite Hra in Hr. rewrite Hea in He.
      apply rev_firstn_cons with (d := EmptyString) in Hr as [i' [-> [Ha Hr]]]; [|exact Hi].
      apply rev_firstn_cons with (d := EmptyString) in He as [j' [-> [Hb He]]]; [|exact Hj].
      rewrite D_match by congruence. apply IH; auto; lia.
    + destruct Ho as [a [b [Hra Hea]]]. rewrite Hra in Hr. rewrite Hea in He.
      apply rev_firstn_cons with (d := EmptyString) in Hr as [i' [-> [_ Hr]]]; [|exact Hi].
      apply rev_firstn_cons with (d := EmptyString) in He as [j' [-> [_ He]]]; [|exact Hj].
      pose proof (D_sub i' j'). pose proof (IH i' j' ltac:(lia) ltac:(lia) Hs' Hr He).
      cbn beta iota delta [List.length]. unfold cost in *. lia.
    + destruct Ho as [a [Hra _]]. rewrite Hra in Hr.
      apply rev_firstn_cons with (d := EmptyString) in Hr as [i' [-> [_ Hr]]]; [|exact Hi].
      pose proof (D_del i' j). pose proof (IH i' j ltac:(lia) Hj Hs' Hr He).
      cbn beta iota delta [List.length]. unfold cost in *. lia.
    + destruct Ho as [b [_ Hea]]. rewrite Hea in He.
      apply rev_firstn_cons with (d := EmptyString) in He as [j' [-> [_ He]]]; [|exact Hj].
      pose proof (D_ins i j'). pose proof (IH i j' Hi ltac:(lia) Hs' Hr He).
      cbn beta iota delta [List.length]. unfold cost in *. lia.
Qed.

End Recurrence.

Section Trace.

Variables ref_hashes ev_hashes : list frame_hash.

Local Abbreviation ra := (ref_seq ref_hashes).
Local Abbreviation rb := (ev_seq ev_hashes).
Local Abbreviation m := (List.length (ref_seq ref_hashes)).
Local Abbreviation n := (List.length (ev_seq ev_hashes)).
Local Abbreviation tA k := (at_ EmptyString (ref_seq ref_hashes) k).
Local Abbreviation tB k := (at_ EmptyString (ev_seq ev_hashes) k).
Local Abbreviation eA k := (at_ default_fh ref_hashes k).
Local Abbreviation eB k := (at_ default_fh ev_hashes k).
Local Abbreviation tr := (trace ref_hashes ev_hashes).
Local Abbreviation T i j := (get (dp ref_hashes ev_hashes) i j).

Lemma backtrack_trace fuel i j acc res :
  backtrack ref_hashes ev_hashes fuel i j acc = Some res ->
  exists ops, tr i j ops /\ res = acc ++ ops.
Proof.
  revert i j acc; induction fuel as [|fuel IH]; intros i j acc H; simpl in H;
    destruct ((0 <? i) || (0 <? j)) eqn:Hij.
  - discriminate.
  - injection H as <-. exists []. rewrite app_nil_r. split; [|reflexivity].
    apply orb_false_iff in Hij as [Hi Hj].
    apply Nat.ltb_ge in Hi, Hj. replace i with 0 by lia. replace j with 0 by lia.
    constructor.
  - destruct (step ref_hashes ev_hashes i j) as [[[o i'] j']|] eqn:Hs; [|discriminate].
    destruct (IH _ _ _ H) as [ops [Htr ->]].
    exists (o :: ops). split; [|now rewrite <- app_assoc].
    apply orb_true_iff in Hij. econstructor; eauto.
    destruct Hij as [Hi|Hj]; [left|right]; apply Nat.ltb_lt; assumption.
  - injection H as <-. exists []. rewrite app_nil_r. split; [|reflexivity].
    apply orb_false_iff in Hij as [Hi Hj].
    apply Nat.ltb_ge in Hi, Hj. replace i with 0 by lia. replace j with 0 by lia.
    constructor.
Qed.

Lemma tA_hash k : tA k = hash (eA k).
Proof. unfold at_, ref_seq. apply (map_nth hash ref_hashes default_fh k). Qed.

Lemma tB_hash k : tB k = hash (eB k).
Proof. unfold at_, ev_seq. apply (map_nth hash ev_hashes default_fh k). Qed.

(** What one iteration can do, branch by branch. *)
Lemma step_cases i j o i' j' :
  step ref_hashes ev_hashes i j = Some (o, i', j') ->
  (0 < i /\ 0 < j /\ tA (i - 1) = tB (j - 1)
   /\ o = mk_op Match (Some (frame_number (eA (i - 1)))) (Some (frame_number (eB (j - 1))))
                (Some (tA (i - 1))) (Some (tB (j - 1)))
   /\ i' = i - 1 /\ j' = j - 1) \/
  (0 < i /\ 0 < j /\ tA (i - 1) <> tB (j - 1) /\ T i j = T (i - 1) (j - 1) + 1
   /\ o = mk_op Substitution (Some (frame_number (eA (i - 1))))
                (Some (frame_number (eB (j - 1)))) (Some (tA (i - 1))) (Some (tB (j - 1)))
   /\ i' = i - 1 /\ j' = j - 1) \/
  (0 < i /\ T i j = T (i - 1) j + 1
   /\ o = mk_op Deletion (Some (frame_number (eA (i - 1)))) None (Some (tA (i - 1))) None
   /\ i' = i - 1 /\ j' = j) \/
  (0 < j /\ T i j = T i (j - 1) + 1
   /\ o = mk_op Insertion None (Some (frame_number (eB (j - 1)))) None (Some (tB (j - 1)))
   /\ i' = i /\ j' = j - 1).
Proof.
  unfold step.
  destruct ((0 <? i) && (0 <? j) && String.eqb (tA (i - 1)) (tB (j - 1))) eqn:E1.
  { intros H; injection H as <- <- <-. left.
    apply andb_true_iff in E1 as [E1 Ee]. apply andb_true_iff in E1 as [Ei Ej].
    apply Nat.ltb_lt in Ei, Ej. apply String.eqb_eq in Ee. tauto. }
  destruct ((0 <? i) && (0 <? j) && (T i j =? T (i - 1) (j - 1) + 1)) eqn:E2.
  { intros H; injection H as <- <- <-. right; left.
    apply andb_true_iff in E2 as [E2 Ee]. apply andb_true_iff in E2 as [Ei Ej].
    rewrite Ei, Ej in E1. simpl in E1. apply String.eqb_neq in E1.
    apply Nat.ltb_lt in Ei, Ej. apply Nat.eqb_eq in Ee. tauto. }
  destruct ((0 <? i) && (T i j =? T (i - 1) j + 1)) eqn:E3.
  { intros H; injection H as <- <- <-. right; right; left.
    apply andb_true_iff in E3 as [Ei Ee].
    apply Nat.ltb_lt in Ei. apply Nat.eqb_eq in Ee. tauto. }
  destruct ((0 <? j) && (T i j =? T i (j - 1) + 1)) eqn:E4; [|discriminate].
  intros H; injection H as <- <- <-. right; right; right.
  apply andb_true_iff in E4 as [Ej Ee].
  apply Nat.ltb_lt in Ej. apply Nat.eqb_eq in Ee. tauto.
Qed.

Lemma T_lev i j : i <= m -> j <= n -> T i j = lev ra rb i j.
Proof. intros Hi Hj. unfold dp. apply get_D; assumption. Qed.

Ltac bools :=
  repeat match goal with
  | H : (_ && _) = true |- _ => apply andb_true_iff in H as [? ?]
  | H : (_ <? _) = true |- _ => apply Nat.ltb_lt in H
  | H : (_ <? _) = false |- _ => apply Nat.ltb_ge in H
  | H : (_ =? _) = true |- _ => apply Nat.eqb_eq in H
  | H : (_ =? _) = false |- _ => apply Nat.eqb_neq in H
  | H : String.eqb _ _ = true |- _ => apply String.eqb_eq in H
  | H : String.eqb _ _ = false |- _ => apply String.eqb_neq in H
  end.

(** Inside the table, some branch of the loop body always applies. *)
Lemma step_total i j :
  i <= m -> j <= n -> (0 < i \/ 0 < j) -> step ref_hashes ev_hashes i j <> None.
Proof.
  intros Hi Hj Hij. unfold step.
  destruct ((0 <? i) && (0 <? j) && String.eqb (tA (i - 1)) (tB (j - 1))) eqn:E1;
    [discriminate|].
  destruct ((0 <? i) && (0 <? j) && (T i j =? T (i - 1) (j - 1) + 1)) eqn:E2;
    [discriminate|].
  destruct ((0 <? i) && (T i j =? T (i - 1) j + 1)) eqn:E3; [discriminate|].
  destruct ((0 <? j) && (T i j =? T i (j - 1) + 1)) eqn:E4; [discriminate|].
  intros _.
  destruct i as [|i], j as [|j]; [lia| | |].
  - replace (S j - 1) with j in * by lia.
    rewrite !T_lev, !D_0_j in E4 by lia.
    change (0 <? S j) with true in E4. cbn [andb] in E4. bools. lia.
  - replace (S i - 1) with i in * by lia.
    rewrite !T_lev, !D_i_0 in E3 by lia.
    change (0 <? S i) with true in E3. cbn [andb] in E3. bools. lia.
  - replace (S i - 1) with i in * by lia. replace (S j - 1) with j in * by lia.
    rewrite !T_lev in E2, E3, E4 by lia.
    change (0 <? S i) with true in E1, E2, E3.
    change (0 <? S j) with true in E1, E2, E4. cbn [andb] in E1, E2, E3, E4. bools.
    unfold at_ in E1. rewrite (D_mismatch ra rb i j E1) in E2, E3, E4. lia.
Qed.

Lemma step_decr i j o i' j' :
  step ref_hashes ev_hashes i j = Some (o, i', j') -> i' <= i /\ j' <= j /\ i' + j' < i + j.
Proof. intros H. apply step_cases in H. lia. Qed.

Lemma backtrack_some fuel i j acc :
  i <= m -> j <= n -> i + j <= fuel ->
  exists res, backtrack ref_hashes ev_hashes fuel i j acc = Some res.
Proof.
  revert i j acc; induction fuel as [|fuel IH]; intros i j acc Hi Hj Hf; simpl.
  - replace i with 0 by lia. replace j with 0 by lia. simpl. eauto.
  - destruct ((0 <? i) || (0 <? j)) eqn:Hij; [|eauto].
    apply orb_true_iff in Hij. assert (Hij' : 0 < i \/ 0 < j) by (destruct Hij as [H|H]; apply Nat.ltb_lt in H; lia).
    destruct (step ref_hashes ev_hashes i j) as [[[o i'] j']|] eqn:Hs.
    + apply step_decr in Hs. apply IH; lia.
    + exfalso. exact (step_total i j Hi Hj Hij' Hs).
Qed.

Lemma eA_In k : k < m -> In (eA k) ref_hashes.
Proof. unfold ref_seq. rewrite length_map. apply nth_In. Qed.

Lemma eB_In k : k < n -> In (eB k) ev_hashes.
Proof. unfold ev_seq. rewrite length_map. apply nth_In. Qed.

(** What the emitted operations add up to, from [(i, j)] on. *)
Lemma trace_props i j ops :
  tr i j ops -> i <= m -> j <= n ->
  cost ops = lev ra rb i j
  /\ tokens ref_tok_nonins ops = rev (firstn i ra)
  /\ tokens ev_tok_nondel ops = rev (firstn j rb)
  /\ Forall (op_wf ref_hashes ev_hashes) ops.
Proof.
  induction 1 as [|i j o i' j' ops Hij Hs Htr IH]; intros Hi Hj.
  { repeat split; constructor. }
  pose proof (step_decr _ _ _ _ _ Hs) as Hd.
  destruct (IH ltac:(lia) ltac:(lia)) as [Hc [Hr [He Hw]]].
  apply step_cases in Hs.
  unfold cost, tokens in *. cbn [filter flat_map].
  destruct Hs as [[Hi0 [Hj0 [Ht [-> [-> ->]]]]] | [[Hi0 [Hj0 [Ht [HT [-> [-> ->]]]]]]
                 | [[Hi0 [HT [-> [-> ->]]]] | [Hj0 [HT [-> [-> ->]]]]]]];
    cbn [type ref_hash ev_hash is_edit ref_tok_nonins ev_tok_nondel side app].
  - destruct i as [|i], j as [|j]; try lia.
    replace (S i - 1) with i in * by lia. replace (S j - 1) with j in * by lia.
    unfold at_ in *. rewrite (D_match ra rb i j Ht).
    rewrite (rev_firstn_pred ra (S i) EmptyString), (rev_firstn_pred rb (S j) EmptyString)
      by lia.
    replace (S i - 1) with i by lia. replace (S j - 1) with j by lia.
    repeat split; try congruence.
    constructor; [|exact Hw].
    exists (eA i), (eB j). rewrite <- !tA_hash, <- !tB_hash.
    repeat split; try (apply eA_In || apply eB_In); unfold at_; auto; lia.
  - destruct i as [|i], j as [|j]; try lia.
    replace (S i - 1) with i in * by lia. replace (S j - 1) with j in * by lia.
    rewrite !T_lev in HT by lia.
    rewrite (rev_firstn_pred ra (S i) EmptyString), (rev_firstn_pred rb (S j) EmptyString)
      by lia.
    replace (S i - 1) with i by lia. replace (S j - 1) with j by lia.
    repeat split; [cbn [List.length]; lia | unfold at_ in *; congruence
                  | unfold at_ in *; congruence |].
    constructor; [|exact Hw].
    exists (eA i), (eB j). rewrite <- !tA_hash, <- !tB_hash.
    repeat split; try (apply eA_In || apply eB_In); unfold at_; auto; lia.
  - destruct i as [|i]; try lia.
    replace (S i - 1) with i in * by lia.
    rewrite !T_lev in HT by lia.
    rewrite (rev_firstn_pred ra (S i) EmptyString) by lia.
    replace (S i - 1) with i by lia.
    repeat split; [cbn [List.length]; lia | unfold at_ in *; congruence
                  | exact He |].
    constructor; [|exact Hw].
    exists (eA i). rewrite <- !tA_hash.
    repeat split; try apply eA_In; unfold at_; auto; lia.
  - destruct j as [|j]; try lia.
    replace (S j - 1) with j in * by lia.
    rewrite !T_lev in HT by lia.
    rewrite (rev_firstn_pred rb (S j) EmptyString) by lia.
    replace (S j - 1) with j by lia.
    repeat split; [cbn [List.length]; lia | exact Hr
                  | unfold at_ in *; congruence |].
    constructor; [|exact Hw].
    exists (eB j). rewrite <- !tB_hash.
    repeat split; try apply eB_In; unfold at_; auto; lia.
Qed.

Lemma align_result :
  exists ops, tr m n ops
    /\ align_sequences ref_hashes ev_hashes = Some (rev ops, lev ra rb m n).
Proof.
  destruct (backtrack_some (m + n) m n [] (le_n _) (le_n _) (le_n _)) as [res Hres].
  destruct (backtrack_trace _ _ _ _ _ Hres) as [ops [Htr ->]].
  exists ops. split; [exact Htr|].
  unfold align_sequences. rewrite Hres. simpl. rewrite T_lev by lia. reflexivity.
Qed.

(** Inside the table, the code's loop body is the spec's step 4. *)
Lemma step_spec i j :
  i <= m -> j <= n -> (0 < i \/ 0 < j) ->
  step ref_hashes ev_hashes i j = Some (spec_backtrack_step ref_hashes ev_hashes i j).
Proof.
  intros Hi Hj Hij. pose proof (step_total i j Hi Hj Hij) as Hnn. revert Hnn.
  unfold step, spec_backtrack_step. cbv zeta.
  rewrite !T_lev by lia. rewrite !tA_hash, !tB_hash.
  change (map hash ref_hashes) with ra. change (map hash ev_hashes) with rb.
  repeat match goal with |- context [if ?c then _ else _] => destruct c end;
    intros H; try reflexivity; congruence.
Qed.

Lemma backtrack_spec fuel i j acc :
  i <= m -> j <= n -> i + j <= fuel ->
  backtrack ref_hashes ev_hashes fuel i j acc
  = Some (acc ++ spec_backtrack ref_hashes ev_hashes fuel i j).
Proof.
  revert i j acc; induction fuel as [|fuel IH]; intros i j acc Hi Hj Hf.
  - replace i with 0 by lia. replace j with 0 by lia. simpl. now rewrite app_nil_r.
  - destruct (Nat.eq_dec i 0) as [->|Hi0]; [destruct (Nat.eq_dec j 0) as [->|Hj0]|].
    + simpl. now rewrite app_nil_r.
    + assert (Hs := step_spec 0 j Hi Hj ltac:(lia)).
      cbn [backtrack spec_backtrack].
      replace ((0 <? 0) || (0 <? j)) with true by (symmetry; apply orb_true_iff; right;
        apply Nat.ltb_lt; lia).
      replace ((0 =? 0) && (j =? 0)) with false by (symmetry; apply andb_false_iff; right;
        apply Nat.eqb_neq; lia).
      rewrite Hs. destruct (spec_backtrack_step ref_hashes ev_hashes 0 j) as [[o i'] j'] eqn:E.
      rewrite <- E in Hs. rewrite E in Hs. apply step_decr in Hs.
      rewrite IH by lia. now rewrite <- app_assoc.
    + assert (Hs := step_spec i j Hi Hj ltac:(lia)).
      cbn [backtrack spec_backtrack].
      replace ((0 <? i) || (0 <? j)) with true by (symmetry; apply orb_true_iff; left;
        apply Nat.ltb_lt; lia).
      replace ((i =? 0) && (j =? 0)) with false by (symmetry; apply andb_false_iff; left;
        apply Nat.eqb_neq; lia).
      rewrite Hs. destruct (spec_backtrack_step ref_hashes ev_hashes i j) as [[o i'] j'] eqn:E.
      apply step_decr in Hs.
      rewrite IH by lia. now rewrite <- app_assoc.
Qed.

Lemma trace_col0 i ops :
  tr i 0 ops -> Forall (fun o => type o = Deletion) ops /\ List.length ops = i.
Proof.
  intros H. remember 0 as z eqn:Hz. revert Hz.
  induction H as [|i j o i' j' ops Hij Hs Htr IH]; intros Hz; [split; [constructor|reflexivity]|].
  subst j. apply step_cases in Hs.
  destruct Hs as [[? [? _]] | [[? [? _]] | [[Hi0 [_ [-> [-> ->]]]] | [? _]]]]; try lia.
  destruct (IH eq_refl) as [Hf Hl]. split; [constructor; [reflexivity|exact Hf]|].
  simpl. lia.
Qed.

Lemma trace_row0 j ops :
  tr 0 j ops -> Forall (fun o => type o = Insertion) ops /\ List.length ops = j.
Proof.
  intros H. remember 0 as z eqn:Hz. revert Hz.
  induction H as [|i j o i' j' ops Hij Hs Htr IH]; intros Hz; [split; [constructor|reflexivity]|].
  subst i. apply step_cases in Hs.
  destruct Hs as [[? _] | [[? _] | [[? _] | [Hj0 [_ [-> [-> ->]]]]]]]; try lia.
  destruct (IH eq_refl) as [Hf Hl]. split; [constructor; [reflexivity|exact Hf]|].
  simpl. lia.
Qed.

End Trace.

Lemma op_wf_shape A B o : op_wf A B o -> shape_ok o.
Proof.
  unfold op_wf, shape_ok. destruct (type o).
  - intros (ea & eb & _ & _ & _ & _ & Hr & He & Hh). exists (hash ea). rewrite Hh in *. auto.
  - intros (ea & eb & _ & _ & _ & _ & Hr & He & _). eauto.
  - intros (ea & _ & _ & Hr & _ & He). eauto.
  - intros (eb & _ & _ & Hr & _ & He). eauto.
Qed.

Lemma stats_fold al s0 :
  let s := fold_left (fun s o => bump s (type o)) al s0 in
  matches s + substitutions s + insertions s + deletions s
    = matches s0 + substitutions s0 + insertions s0 + deletions s0 + List.length al
  /\ total_operations s = total_operations s0
  /\ substitutions s + insertions s + deletions s
    = substitutions s0 + insertions s0 + deletions s0 + cost al.
Proof.
  revert s0; induction al as [|o al IH]; intros s0; simpl.
  - unfold cost; simpl. lia.
  - destruct (IH (bump s0 (type o))) as [H1 [H2 H3]].
    unfold cost in *. simpl. unfold is_edit at 1.
    destruct (type o); simpl in *; split; try split; lia.
Qed.

Lemma firstn_length_all {A} (l : list A) : firstn (List.length l) l = l.
Proof. apply firstn_all. Qed.

(** ** Claims about [align_sequences] *)

(** C1: the table follows the recurrence with base cases [dp[i][0] = i] and
    [dp[0][j] = j]; the returned edit distance is [dp[m][n]], the cost of the
    returned alignment, which is an edit script from [A] to [B], and no edit
    script from [A] to [B] has fewer substitutions, insertions and
    deletions. *)
Theorem align_sequences_edit_distance (A B : list frame_hash) :
  (forall i, i <= List.length A -> get (dp A B) i 0 = i)
  /\ (forall j, j <= List.length B -> get (dp A B) 0 j = j)
  /\ (forall i j, 1 <= i <= List.length A -> 1 <= j <= List.length B ->
       get (dp A B) i j =
       if String.eqb (nth (i - 1) (ref_seq A) EmptyString) (nth (j - 1) (ev_seq B) EmptyString)
       then get (dp A B) (i - 1) (j - 1)
       else 1 + Nat.min (Nat.min (get (dp A B) (i - 1) j) (get (dp A B) i (j - 1)))
                        (get (dp A B) (i - 1) (j - 1)))
  /\ exists al d, align_sequences A B = Some (al, d)
       /\ d = get (dp A B) (List.length A) (List.length B)
       /\ edit_script (ref_seq A) (ev_seq B) al /\ cost al = d
       /\ (forall al', edit_script (ref_seq A) (ev_seq B) al' -> d <= cost al').
Proof.
  assert (Hm : List.length (ref_seq A) = List.length A) by apply length_map.
  assert (Hn : List.length (ev_seq B) = List.length B) by apply length_map.
  split; [|split; [|split]].
  - intros i Hi. rewrite T_lev, D_i_0 by lia. reflexivity.
  - intros j Hj. rewrite T_lev, D_0_j by lia. reflexivity.
  - intros i j Hi Hj. rewrite !T_lev by lia.
    destruct i as [|i], j as [|j]; try lia.
    replace (S i - 1) with i by lia. replace (S j - 1) with j by lia.
    rewrite D_S_S. reflexivity.
  - destruct (align_result A B) as [ops [Htr Hal]].
    destruct (trace_props A B _ _ _ Htr (le_n _) (le_n _)) as [Hc [Hr [He Hw]]].
    rewrite !firstn_length_all in Hr, He.
    exists (rev ops), (lev (ref_seq A) (ev_seq B) (List.length (ref_seq A))
                          (List.length (ev_seq B))).
    split; [exact Hal|]. split; [rewrite T_lev by lia; rewrite Hm, Hn; reflexivity|].
    split; [|split].
    + split; [|split].
      * apply Forall_rev. eapply Forall_impl; [|exact Hw]. apply op_wf_shape.
      * rewrite tokens_rev, Hr. apply rev_involutive.
      * rewrite tokens_rev, He. apply rev_involutive.
    + rewrite cost_rev. exact Hc.
    + intros al' [Hs' [Hr' He']].
      rewrite <- cost_rev. apply lev_lower.
      * lia.
      * lia.
      * apply Forall_rev. exact Hs'.
      * rewrite tokens_rev, Hr', firstn_length_all. reflexivity.
      * rewrite tokens_rev, He', firstn_length_all. reflexivity.
Qed.

(** C2: [align_sequences] returns exactly what the backtracking of the spec
    returns: from [(m, n)], (a) a match when both indices are positive and
    the tokens are equal, else (b) a substitution when both are positive
    and [dp[i][j] = dp[i-1][j-1] + 1], else (c) a deletion when [i > 0] and
    [dp[i][j] = dp[i-1][j] + 1], else (d) an insertion; the list is then
    reversed.  Being this function of its inputs, two runs agree. *)
Theorem align_sequences_tie_break (A B : list frame_hash) :
  align_sequences A B = Some (spec_align A B).
Proof.
  assert (Hm : List.length (ref_seq A) = List.length A) by apply length_map.
  assert (Hn : List.length (ev_seq B) = List.length B) by apply length_map.
  unfold align_sequences, spec_align. cbv zeta.
  rewrite (backtrack_spec A B _ _ _ [] (le_n _) (le_n _) (le_n _)).
  rewrite T_lev by lia. rewrite Hm, Hn. reflexivity.
Qed.

(** C3, as stated, fails: with [A = [h]] and [B = []] the only operation
    is a deletion, whose reference-side token is then left out; with
    [A = []] and [B = [h]] the only operation is an insertion, whose
    evidence-side token is left out. *)
Lemma align_sequences_replay_counterexample :
  (exists al d, align_sequences [mk_frame_hash 1 "h"%string] [] = Some (al, d)
     /\ tokens ref_tok_nondel al <> ref_seq [mk_frame_hash 1 "h"%string])
  /\ (exists al d, align_sequences [] [mk_frame_hash 1 "h"%string] = Some (al, d)
     /\ tokens ev_tok_nonins al <> ev_seq [mk_frame_hash 1 "h"%string]).
Proof.
  split; eexists; eexists; (split; [reflexivity|]); vm_compute; discriminate.
Qed.

(** C3 (amended): replaying the alignment in order, the reference-side
    tokens of the non-insertion operations give [A]'s tokens and the
    evidence-side tokens of the non-deletion operations give [B]'s. *)
Theorem align_sequences_replay (A B : list frame_hash) :
  exists al d, align_sequences A B = Some (al, d)
    /\ tokens ref_tok_nonins al = ref_seq A
    /\ tokens ev_tok_nondel al = ev_seq B.
Proof.
  destruct (align_result A B) as [ops [Htr Hal]].
  destruct (trace_props A B _ _ _ Htr (le_n _) (le_n _)) as [_ [Hr [He _]]].
  rewrite !firstn_length_all in Hr, He.
  do 2 eexists. split; [exact Hal|].
  rewrite !tokens_rev, Hr, He, !rev_involutive. split; reflexivity.
Qed.

(** C4: the counts of [analyze_differences] add up to [total_operations],
    which is the length of the alignment, and the edit distance returned
    with the alignment is substitutions + insertions + deletions. *)
Theorem align_sequences_stats (A B : list frame_hash) :
  exists al d, align_sequences A B = Some (al, d)
    /\ matches (analyze_differences al) + substitutions (analyze_differences al)
       + insertions (analyze_differences al) + deletions (analyze_differences al)
       = total_operations (analyze_differences al)
    /\ total_operations (analyze_differences al) = List.length al
    /\ d = substitutions (analyze_differences al) + insertions (analyze_differences al)
           + deletions (analyze_differences al).
Proof.
  destruct (align_result A B) as [ops [Htr Hal]].
  destruct (trace_props A B _ _ _ Htr (le_n _) (le_n _)) as [Hc _].
  do 2 eexists. split; [exact Hal|].
  unfold analyze_differences.
  destruct (stats_fold (rev ops) (mk_stats 0 0 0 0 (List.length (rev ops))))
    as [H1 [H2 H3]].
  simpl in H1, H2, H3. rewrite cost_rev, Hc in H3. lia.
Qed.

(** C5: against an empty evidence sequence the alignment is [|A|]
    deletions and the distance [|A|]; against an empty reference sequence
    it is [|B|] insertions and the distance [|B|]; two empty sequences give
    the empty alignment and distance 0. *)
Theorem align_sequences_empty (A B : list frame_hash) :
  (exists al, align_sequences A [] = Some (al, List.length A)
     /\ List.length al = List.length A /\ Forall (fun o => type o = Deletion) al)
  /\ (exists al, align_sequences [] B = Some (al, List.length B)
     /\ List.length al = List.length B /\ Forall (fun o => type o = Insertion) al)
  /\ align_sequences [] [] = Some ([], 0).
Proof.
  split; [|split; [|reflexivity]].
  - destruct (align_result A []) as [ops [Htr Hal]].
    change (List.length (ev_seq [])) with 0 in Htr, Hal.
    destruct (trace_col0 A [] _ _ Htr) as [Hf Hl].
    unfold ref_seq in *. rewrite length_map in *. rewrite D_i_0 in Hal.
    exists (rev ops). split; [exact Hal|]. split.
    + rewrite length_rev. exact Hl.
    + apply Forall_rev. exact Hf.
  - destruct (align_result [] B) as [ops [Htr Hal]].
    change (List.length (ref_seq [])) with 0 in Htr, Hal.
    destruct (trace_row0 [] B _ _ Htr) as [Hf Hl].
    unfold ev_seq in *. rewrite length_map in *. rewrite D_0_j in Hal.
    exists (rev ops). split; [exact Hal|]. split.
    + rewrite length_rev. exact Hl.
    + apply Forall_rev. exact Hf.
Qed.

(** C9: inside the table every iteration of the backtracking loop takes one
    of its branches and lowers [i + j], so [align_sequences] always returns
    an alignment and a distance. *)
Theorem align_sequences_terminates (A B : list frame_hash) :
  (forall i j, i <= List.length A -> j <= List.length B -> (0 < i \/ 0 < j) ->
     exists o i' j', step A B i j = Some (o, i', j') /\ i' + j' < i + j)
  /\ exists al d, align_sequences A B = Some (al, d).
Proof.
  split.
  - intros i j Hi Hj Hij.
    assert (Hm : List.length (ref_seq A) = List.length A) by apply length_map.
    assert (Hn : List.length (ev_seq B) = List.length B) by apply length_map.
    destruct (step A B i j) as [[[o i'] j']|] eqn:Hs.
    + apply step_decr in Hs. exists o, i', j'. split; [reflexivity|lia].
    + exfalso. exact (step_total A B i j ltac:(lia) ltac:(lia) Hij Hs).
  - destruct (align_result A B) as [ops [_ Hal]]. eauto.
Qed.

(** C10: every operation of the alignment carries fields taken from the
    input elements: a match equal hashes, a substitution different ones, a
    deletion only reference fields, an insertion only evidence fields; no
    operation has both hashes [None]. *)
Theorem align_sequences_ops_well_formed (A B : list frame_hash) :
  exists al d, align_sequences A B = Some (al, d)
    /\ Forall (fun o => op_wf A B o /\ (ref_hash o <> None \/ ev_hash o <> None)) al.
Proof.
  destruct (align_result A B) as [ops [Htr Hal]].
  destruct (trace_props A B _ _ _ Htr (le_n _) (le_n _)) as [_ [_ [_ Hw]]].
  do 2 eexists. split; [exact Hal|].
  apply Forall_rev. eapply Forall_impl; [|exact Hw].
  intros o Ho. split; [exact Ho|].
  apply op_wf_shape in Ho. unfold shape_ok in Ho.
  destruct (type o).
  - destruct Ho as [a [Hr _]]. left; congruence.
  - destruct Ho as [a [b [Hr _]]]. left; congruence.
  - destruct Ho as [a [Hr _]]. left; congruence.
  - destruct Ho as [b [_ He]]. right; congruence.
Qed.

(** ** [calculate_hamming_distance] *)

Lemma pos_popcount_pos p : 1 <= pos_popcount p.
Proof. induction p; simpl; lia. Qed.

Lemma bin_count_ones_zero x : bin_count_ones x = 0 <-> x = 0%Z.
Proof.
  destruct x as [|p|p]; simpl; [tauto| |];
    pose proof (pos_popcount_pos p); split; intros H'; try lia; discriminate.
Qed.

Lemma calculate_some a b r :
  calculate_hamming_distance a b = Some r ->
  exists x y, int16 a = Some x /\ int16 b = Some y
    /\ hamming_distance r = bin_count_ones (Z.lxor x y)
    /\ max_bits r = String.length a * 4 /\ String.length a <> 0
    /\ similarity_percentage r
       = ((inject_Z (Z.of_nat (max_bits r) - Z.of_nat (hamming_distance r))
           / inject_Z (Z.of_nat (max_bits r))) * 100)%Q.
Proof.
  unfold calculate_hamming_distance.
  destruct ((String.length a =? 0) || (String.length b =? 0)) eqn:E1; [discriminate|].
  destruct (negb (String.length a =? String.length b)); [discriminate|].
  destruct (int16 a) as [x|], (int16 b) as [y|]; try discriminate.
  intros H; injection H as <-. exists x, y. simpl.
  apply orb_false_iff in E1 as [E1 _]. apply Nat.eqb_neq in E1. repeat split; auto.
Qed.

Lemma similarity_full mb :
  mb <> 0 ->
  ((inject_Z (Z.of_nat mb - Z.of_nat 0) / inject_Z (Z.of_nat mb)) * 100 == 100)%Q.
Proof.
  intros H. rewrite Z.sub_0_r. unfold Qdiv. rewrite Qmult_inv_r; [apply Qmult_1_l|].
  intros Hq. unfold Qeq in Hq. simpl in Hq. lia.
Qed.

Lemma similarity_none mb :
  ((inject_Z (Z.of_nat mb - Z.of_nat mb) / inject_Z (Z.of_nat mb)) * 100 == 0)%Q.
Proof.
  rewrite Z.sub_diag. unfold Qdiv. change (inject_Z 0) with 0%Q.
  rewrite Qmult_0_l. apply Qmult_0_l.
Qed.

Lemma lower_char_facts_all c : lower_char_facts c = true.
Proof. destruct c as [[] [] [] [] [] [] [] []]; reflexivity. Qed.

Lemma lower_char_props c :
  lower_hex_char c = true ->
  is_space c = false /\ Ascii.eqb c "_"%char = false /\ Ascii.eqb c "x"%char = false
  /\ Ascii.eqb c "X"%char = false
  /\ exists v, hex_val c = Some v /\ (0 <= v < 16)%Z /\ digit_char v = c.
Proof.
  intros Hc. pose proof (lower_char_facts_all c) as F. unfold lower_char_facts in F.
  rewrite Hc in F. simpl in F.
  apply andb_true_iff in F as [F Fv]. apply andb_true_iff in F as [F F4].
  apply andb_true_iff in F as [F F3]. apply andb_true_iff in F as [F1 F2].
  apply negb_true_iff in F1, F2, F3, F4. repeat split; auto.
  destruct (hex_val c) as [v|]; [|discriminate].
  apply andb_true_iff in Fv as [Fv Fd]. apply andb_true_iff in Fv as [Fv0 Fv1].
  apply Z.leb_le in Fv0. apply Z.ltb_lt in Fv1. apply Ascii.eqb_eq in Fd.
  exists v. repeat split; auto; lia.
Qed.

Lemma parse_signed_lower c r :
  lower_hex_char c = true -> parse_signed (c :: r) = parse_magnitude (c :: r).
Proof. destruct c as [[] [] [] [] [] [] [] []]; intros H; try discriminate H; reflexivity. Qed.

Lemma parse_magnitude_lower c r :
  lower_hex_char c = true -> forallb lower_hex_char r = true ->
  parse_magnitude (c :: r) = option_map horner (hex_digits (c :: r)).
Proof.
  intros Hc Hr. destruct r as [|x r].
  - destruct c as [[] [] [] [] [] [] [] []]; try discriminate Hc; reflexivity.
  - simpl in Hr. apply andb_true_iff in Hr as [Hx _].
    destruct (lower_char_props x Hx) as (_ & _ & Fx & FX & _).
    destruct c as [[] [] [] [] [] [] [] []]; try discriminate Hc;
      cbn [parse_magnitude]; try (rewrite Fx, FX; cbn [orb]);
      destruct (hex_digits _); reflexivity.
Qed.

Lemma hex_digits_lower l :
  forallb lower_hex_char l = true ->
  exists ds, hex_digits l = Some ds /\ l = map digit_char ds
    /\ Forall (fun v => (0 <= v < 16)%Z) ds.
Proof.
  induction l as [|c l IH]; intros H; [exists []; auto|].
  simpl in H. apply andb_true_iff in H as [Hc Hl].
  destruct (IH Hl) as [ds [Hds [Hl' Hf]]].
  destruct (lower_char_props c Hc) as (_ & Hu & _ & _ & v & Hv & Hb & Hd).
  exists (v :: ds). simpl. rewrite Hu, Hv, Hds. rewrite Hd, <- Hl'. auto.
Qed.

Lemma drop_space_lower l : forallb lower_hex_char l = true -> drop_space l = l.
Proof.
  destruct l as [|c l]; [reflexivity|]. simpl. intros H.
  apply andb_true_iff in H as [Hc _]. destruct (lower_char_props c Hc) as [Hs _].
  rewrite Hs. reflexivity.
Qed.

Lemma strip_lower l : forallb lower_hex_char l = true -> strip l = l.
Proof.
  intros H. unfold strip. rewrite (drop_space_lower l H).
  rewrite drop_space_lower; [apply rev_involutive|].
  apply forallb_forall. intros c Hc. apply in_rev in Hc.
  exact (proj1 (forallb_forall _ _) H c Hc).
Qed.

Lemma int16_lower s :
  lower_hex_token s = true -> s <> EmptyString ->
  exists ds, int16 s = Some (horner ds) /\ list_ascii_of_string s = map digit_char ds
    /\ Forall (fun v => (0 <= v < 16)%Z) ds.
Proof.
  unfold lower_hex_token, int16. intros H Hne.
  rewrite (strip_lower _ H).
  destruct (hex_digits_lower _ H) as [ds [Hds [Hl Hf]]].
  exists ds. split; [|auto].
  destruct s as [|c s]; [congruence|].
  change (list_ascii_of_string (String c s)) with (c :: list_ascii_of_string s) in *.
  cbn [forallb] in H. apply andb_true_iff in H as [Hc Hr].
  rewrite parse_signed_lower, parse_magnitude_lower by assumption.
  rewrite Hds. reflexivity.
Qed.

Lemma horner_snoc l d : horner (l ++ [d]) = (horner l * 16 + d)%Z.
Proof. unfold horner. rewrite fold_left_app. reflexivity. Qed.

Lemma horner_inj l1 : forall l2,
  List.length l1 = List.length l2 ->
  Forall (fun v => (0 <= v < 16)%Z) l1 -> Forall (fun v => (0 <= v < 16)%Z) l2 ->
  horner l1 = horner l2 -> l1 = l2.
Proof.
  induction l1 as [|x l1 IH] using rev_ind; intros l2 Hl F1 F2 Hh.
  - destruct l2; [reflexivity|discriminate].
  - destruct l2 as [|y l2'] eqn:E2; [rewrite length_app in Hl; simpl in Hl; lia|].
    rewrite <- E2 in *. assert (Hne : l2 <> []) by congruence.
    destruct (exists_last Hne) as [l2'' [y' ->]].
    rewrite !length_app in Hl. simpl in Hl.
    apply Forall_app in F1 as [F1 Fx]. apply Forall_app in F2 as [F2 Fy].
    inversion Fx as [|? ? Hx _]. inversion Fy as [|? ? Hy _]. subst.
    rewrite !horner_snoc in Hh.
    assert (x = y' /\ horner l1 = horner l2'') as [-> Hh'] by lia.
    rewrite (IH l2'' ltac:(lia) F1 F2 Hh'). reflexivity.
Qed.

Lemma length_list_ascii_of_string s : List.length (list_ascii_of_string s) = String.length s.
Proof. induction s; simpl; auto. Qed.

(** C6, as stated, fails: [int(s, 16)] reads both letter cases, so the
    different tokens ["0A"] and ["0a"] are at bit distance 0. *)
Lemma calculate_hamming_distance_case_counterexample :
  exists r, calculate_hamming_distance "0A"%string "0a"%string = Some r
    /\ hamming_distance r = 0 /\ "0A"%string <> "0a"%string.
Proof. eexists. split; [reflexivity|]. split; [reflexivity|discriminate]. Qed.

(** C6 (amended): whenever [calculate_hamming_distance] returns a result,
    its [hamming_distance] is 0 exactly when both tokens parse to the same
    integer, and then [similarity_percentage] is 100; when it equals
    [max_bits], [similarity_percentage] is 0.  For two non-empty tokens of
    lowercase hexadecimal digits of the same length a result is returned,
    and its [hamming_distance] is 0 exactly when the tokens are equal. *)
Theorem calculate_hamming_distance_zero :
  (forall a b r, calculate_hamming_distance a b = Some r ->
     (hamming_distance r = 0 <-> int16 a = int16 b)
     /\ (hamming_distance r = 0 -> (similarity_percentage r == 100)%Q)
     /\ (hamming_distance r = max_bits r -> (similarity_percentage r == 0)%Q))
  /\ (forall a b, lower_hex_token a = true -> lower_hex_token b = true ->
        a <> EmptyString -> String.length a = String.length b ->
        exists r, calculate_hamming_distance a b = Some r
          /\ (hamming_distance r = 0 <-> a = b)).
Proof.
  split.
  - intros a b r H.
    destruct (calculate_some a b r H) as (x & y & Ha & Hb & Hd & Hm & Hn & Hs).
    rewrite Ha, Hb. split; [|split].
    + rewrite Hd, bin_count_ones_zero, Z.lxor_eq_0_iff. split; congruence.
    + intros H0. rewrite Hs, H0. apply similarity_full. lia.
    + intros H0. rewrite Hs, H0. apply similarity_none.
  - intros a b Ha Hb Hne Hlen.
    assert (Hne' : b <> EmptyString) by (intros ->; destruct a; simpl in Hlen; congruence).
    destruct (int16_lower a Ha Hne) as [da [Hia [Hla Hfa]]].
    destruct (int16_lower b Hb Hne') as [db [Hib [Hlb Hfb]]].
    unfold calculate_hamming_distance.
    replace ((String.length a =? 0) || (String.length b =? 0)) with false
      by (destruct a, b; simpl; congruence).
    rewrite Hlen, Nat.eqb_refl, Hia, Hib. simpl negb. cbv iota.
    eexists. split; [reflexivity|]. cbn [hamming_distance].
    rewrite bin_count_ones_zero, Z.lxor_eq_0_iff. split.
    + intros Hh.
      assert (Hl : List.length da = List.length db).
      { rewrite <- (length_map digit_char da), <- (length_map digit_char db), <- Hla, <- Hlb,
          !length_list_ascii_of_string. exact Hlen. }
      pose proof (horner_inj da db Hl Hfa Hfb Hh) as ->.
      rewrite <- (string_of_list_ascii_of_string a), <- (string_of_list_ascii_of_string b).
      congruence.
    + intros ->. congruence.
Qed.

(** ** [calculate_hamming_distance] failures *)

(** C7, as stated, fails: an incompatible pair (different lengths) and an
    unparsable token give the same result, [None]; there is no distinct
    error for either case. *)
Lemma calculate_hamming_distance_errors_counterexample :
  calculate_hamming_distance "0"%string "00"%string = None
  /\ calculate_hamming_distance "zz"%string "00"%string = None.
Proof. split; reflexivity. Qed.

(** C7 (amended): [calculate_hamming_distance] never raises; it returns
    [None], one and the same value, exactly when a token is empty, when the
    lengths differ, or when [int(., 16)] rejects a token. *)
Theorem calculate_hamming_distance_none (a b : string) :
  calculate_hamming_distance a b = None <->
  (String.length a = 0 \/ String.length b = 0 \/ String.length a <> String.length b
   \/ int16 a = None \/ int16 b = None).
Proof.
  unfold calculate_hamming_distance.
  destruct (String.length a =? 0) eqn:Ea; [apply Nat.eqb_eq in Ea; simpl; tauto|].
  destruct (String.length b =? 0) eqn:Eb; [apply Nat.eqb_eq in Eb; simpl; tauto|].
  apply Nat.eqb_neq in Ea, Eb. simpl.
  destruct (String.length a =? String.length b) eqn:Ec; simpl.
  - apply Nat.eqb_eq in Ec.
    destruct (int16 a), (int16 b); split; intros H; try discriminate; try tauto;
      destruct H as [H|[H|[H|[H|H]]]]; congruence.
  - apply Nat.eqb_neq in Ec. tauto.
Qed.

(** ** Similarity scores *)

Lemma score_step_eq acc1 acc2 o :
  score_step (acc1, acc2) o = (acc1 ++ [op_score o], acc2 ++ sub_score o).
Proof.
  unfold score_step, op_score, sub_score.
  destruct (type o); try (rewrite app_nil_r; reflexivity).
  destruct (calculate_hamming_distance (hash_or_empty (ref_hash o))
              (hash_or_empty (ev_hash o))); [reflexivity|].
  rewrite app_nil_r. reflexivity.
Qed.

Lemma scores_fold al : forall acc1 acc2,
  fold_left score_step al (acc1, acc2)
  = (acc1 ++ map op_score al, acc2 ++ flat_map sub_score al).
Proof.
  induction al as [|o al IH]; intros acc1 acc2; cbn [fold_left map flat_map].
  - rewrite !app_nil_r. reflexivity.
  - rewrite score_step_eq, IH, <- !app_assoc. reflexivity.
Qed.

(** C8, as stated, fails: a substitution of the incompatible hashes ["0"]
    and ["00"] (it is what [align_sequences] returns for these frames) is
    scored 0 and averaged in: a match and this substitution average to 50,
    not to the 100 of the match alone. *)
Lemma similarity_scores_incompatible_counterexample :
  align_sequences [mk_frame_hash 1 "a"%string; mk_frame_hash 2 "0"%string]
                  [mk_frame_hash 1 "a"%string; mk_frame_hash 2 "00"%string]
  = Some ([mk_op Match (Some 1) (Some 1) (Some "a"%string) (Some "a"%string);
           mk_op Substitution (Some 2) (Some 2) (Some "0"%string) (Some "00"%string)], 1)
  /\ similarity_scores
       [mk_op Match (Some 1) (Some 1) (Some "a"%string) (Some "a"%string);
        mk_op Substitution (Some 2) (Some 2) (Some "0"%string) (Some "00"%string)]
     = ([100%Q; 0%Q], [])
  /\ Qeq (avg_similarity
           [mk_op Match (Some 1) (Some 1) (Some "a"%string) (Some "a"%string);
            mk_op Substitution (Some 2) (Some 2) (Some "0"%string) (Some "00"%string)])
         50.
Proof. split; [|split]; reflexivity. Qed.

(** C8 (amended): every operation adds exactly one score to
    [similarity_scores]: 100 for a match, 0 for an insertion or a deletion,
    the [similarity_percentage] for a substitution that
    [calculate_hamming_distance] accepts and 0 for one it rejects (kept in
    the overall average); only accepted substitutions enter
    [substitution_similarities].  Nothing aborts. *)
Theorem similarity_scores_per_op (alignment : list op) :
  similarity_scores alignment = (map op_score alignment, flat_map sub_score alignment)
  /\ List.length (fst (similarity_scores alignment)) = List.length alignment.
Proof.
  unfold similarity_scores. rewrite scores_fold. simpl.
  split; [reflexivity|]. apply length_map.
Qed.

(** ** [find_longest_common_subsequence] *)

Lemma lcs_fill_row_cons a b bs x y r left :
  lcs_fill_row a (b :: bs) (x :: y :: r) left
  = lcs_cell a b x y left :: lcs_fill_row a bs (y :: r) (lcs_cell a b x y left).
Proof. reflexivity. Qed.

Lemma map_const_seq {A} (f : nat -> A) c k start :
  (forall x, f x = c) -> map f (seq start k) = repeat c k.
Proof.
  intros Hf. revert start; induction k as [|k IH]; intros start; [reflexivity|].
  simpl. rewrite Hf, IH. reflexivity.
Qed.

Section LcsTable.

Variables ra rb : list string.

Local Abbreviation L := (lcs_rec ra rb).

Lemma L_i_0 i : L i 0 = 0.
Proof. destruct i; reflexivity. Qed.

Lemma L_S_S i j :
  L (S i) (S j) = lcs_cell (nth i ra EmptyString) (nth j rb EmptyString)
                           (L i j) (L i (S j)) (L (S i) j).
Proof. reflexivity. Qed.

Lemma lcs_fill_row_L i k bs :
  skipn k rb = bs ->
  lcs_fill_row (nth i ra EmptyString) bs (map (L i) (seq k (S (List.length bs)))) (L (S i) k)
  = map (L (S i)) (seq (S k) (List.length bs)).
Proof.
  revert k; induction bs as [|b bs IH]; intros k Hk; [reflexivity|].
  destruct (skipn_cons_inv _ _ _ _ EmptyString Hk) as [Hb Hbs].
  change (map (L i) (seq k (S (List.length (b :: bs)))))
    with (L i k :: L i (S k) :: map (L i) (seq (S (S k)) (List.length bs))).
  change (map (L (S i)) (seq (S k) (List.length (b :: bs))))
    with (L (S i) (S k) :: map (L (S i)) (seq (S (S k)) (List.length bs))).
  rewrite lcs_fill_row_cons.
  replace (lcs_cell (nth i ra EmptyString) b (L i k) (L i (S k)) (L (S i) k))
    with (L (S i) (S k)) by (rewrite L_S_S, Hb; reflexivity).
  f_equal. exact (IH (S k) Hbs).
Qed.

Lemma lcs_row_L i :
  0 :: lcs_fill_row (nth i ra EmptyString) rb (map (L i) (seq 0 (S (List.length rb)))) 0
  = map (L (S i)) (seq 0 (S (List.length rb))).
Proof.
  pose proof (lcs_fill_row_L i 0 rb eq_refl) as H.
  rewrite L_i_0 in H. rewrite H. reflexivity.
Qed.

Lemma lcs_fill_rows_L i as_ :
  skipn i ra = as_ ->
  lcs_fill_rows rb as_ (map (L i) (seq 0 (S (List.length rb))))
  = map (fun i' => map (L i') (seq 0 (S (List.length rb)))) (seq (S i) (List.length as_)).
Proof.
  revert i; induction as_ as [|a as' IH]; intros i Hi; [reflexivity|].
  destruct (skipn_cons_inv _ _ _ _ EmptyString Hi) as [Ha Has].
  cbn [lcs_fill_rows]. rewrite <- Ha, lcs_row_L. cbn [List.length seq map].
  f_equal. exact (IH (S i) Has).
Qed.

Lemma lcs_table_L :
  lcs_table ra rb
  = map (fun i => map (L i) (seq 0 (S (List.length rb)))) (seq 0 (S (List.length ra))).
Proof.
  unfold lcs_table.
  replace (repeat 0 (S (List.length rb))) with (map (L 0) (seq 0 (S (List.length rb))))
    by (apply map_const_seq; reflexivity).
  rewrite (lcs_fill_rows_L 0 ra eq_refl). reflexivity.
Qed.

Lemma get_L i j :
  i <= List.length ra -> j <= List.length rb -> get (lcs_table ra rb) i j = L i j.
Proof.
  intros Hi Hj. unfold get. rewrite lcs_table_L.
  rewrite nth_map_seq by lia. rewrite nth_map_seq by lia. reflexivity.
Qed.

End LcsTable.

(** Subsequences. *)

Lemma subseq_nil_l {X} (l : list X) : subseq [] l.
Proof. induction l; constructor; assumption. Qed.

Lemma subseq_refl {X} (l : list X) : subseq l l.
Proof. induction l; constructor; assumption. Qed.

Lemma subseq_nil_r {X} (s : list X) : subseq s [] -> s = [].
Proof. intros H. inversion H. reflexivity. Qed.

Lemma subseq_length {X} (s l : list X) : subseq s l -> List.length s <= List.length l.
Proof. induction 1; simpl; lia. Qed.

Lemma subseq_cons_l {X} (x : X) s l : subseq (x :: s) l -> subseq s l.
Proof.
  intros H. remember (x :: s) as xs eqn:E. revert s E.
  induction H as [|y s' l' H IH|y s' l' H IH]; intros s E; [discriminate| |].
  - injection E as -> ->. constructor. exact H.
  - constructor. exact (IH s E).
Qed.

Lemma subseq_cons_cons {X} (x a : X) s l : subseq (x :: s) (a :: l) -> subseq s l.
Proof. intros H. inversion H; subst; [assumption|]. eapply subseq_cons_l; eassumption. Qed.

(** Inverting a subsequence of [a :: l]. *)
Lemma subseq_cons_inv {X} (s : list X) a l :
  subseq s (a :: l) -> subseq s l \/ exists s', s = a :: s' /\ subseq s' l.
Proof. intros H. inversion H; subst; eauto. Qed.

Lemma subseq_app {X} (s1 l1 s2 l2 : list X) :
  subseq s1 l1 -> subseq s2 l2 -> subseq (s1 ++ s2) (l1 ++ l2).
Proof. induction 1; intros H2; simpl; [exact H2|constructor..]; auto. Qed.

Lemma subseq_rev {X} (s l : list X) : subseq s l -> subseq (rev s) (rev l).
Proof.
  induction 1; simpl; [constructor| |].
  - apply subseq_app; [assumption|apply subseq_refl].
  - rewrite <- (app_nil_r (rev s)). apply subseq_app; [assumption|apply subseq_nil_l].
Qed.

Lemma subseq_rev_iff {X} (s l : list X) : subseq (rev s) (rev l) -> subseq s l.
Proof. intros H. apply subseq_rev in H. rewrite !rev_involutive in H. exact H. Qed.

Section LcsSpec.

Variables ra rb : list string.

Local Abbreviation L := (lcs_rec ra rb).
Local Abbreviation P i := (rev (firstn i ra)).
Local Abbreviation Q j := (rev (firstn j rb)).

(** [dp[i][j]] is the length of a longest common subsequence of the
    prefixes of length [i] and [j] (taken reversed). *)
Lemma L_spec i : forall j, i <= List.length ra -> j <= List.length rb ->
  (exists s, subseq s (P i) /\ subseq s (Q j) /\ List.length s = L i j)
  /\ (forall s, subseq s (P i) -> subseq s (Q j) -> List.length s <= L i j).
Proof.
  induction i as [|i IHi]; intros j Hi Hj.
  - split; [exists []; repeat split; apply subseq_nil_l|].
    intros s H _. simpl in H. apply subseq_nil_r in H. subst. simpl. lia.
  - revert Hj; induction j as [|j IHj]; intros Hj.
    + split; [exists []; repeat split; apply subseq_nil_l|].
      intros s _ H. simpl in H. apply subseq_nil_r in H. subst. simpl. lia.
    + rewrite (rev_firstn_pred ra (S i) EmptyString), (rev_firstn_pred rb (S j) EmptyString)
        by lia.
      replace (S i - 1) with i by lia. replace (S j - 1) with j by lia.
      destruct (IHi j ltac:(lia) ltac:(lia)) as [[s0 [H0a [H0b H0l]]] H0u].
      destruct (IHi (S j) ltac:(lia) ltac:(lia)) as [[s1 [H1a [H1b H1l]]] H1u].
      destruct (IHj ltac:(lia)) as [[s2 [H2a [H2b H2l]]] H2u].
      rewrite (rev_firstn_pred rb (S j) EmptyString) in H1b, H1u by lia.
      rewrite (rev_firstn_pred ra (S i) EmptyString) in H2a, H2u by lia.
      replace (S i - 1) with i in * by lia. replace (S j - 1) with j in * by lia.
      rewrite L_S_S. unfold lcs_cell.
      destruct (String.eqb (nth i ra EmptyString) (nth j rb EmptyString)) eqn:E.
      * apply String.eqb_eq in E. split.
        -- exists (nth i ra EmptyString :: s0). split; [|split].
           ++ constructor. exact H0a.
           ++ rewrite E. constructor. exact H0b.
           ++ simpl. lia.
        -- intros [|x s] Ha Hb; [simpl; lia|].
           apply subseq_cons_cons in Ha, Hb.
           specialize (H0u s Ha Hb). simpl. lia.
      * apply String.eqb_neq in E. split.
        -- destruct (Nat.le_ge_cases (L i (S j)) (L (S i) j)).
           ++ exists s2. repeat split; [exact H2a|apply subseq_skip; exact H2b|lia].
           ++ exists s1. repeat split; [apply subseq_skip; exact H1a|exact H1b|lia].
        -- intros s Ha Hb.
           destruct (subseq_cons_inv _ _ _ Ha) as [Ha'|[s' [-> Ha']]].
           ++ specialize (H1u s Ha' Hb). lia.
           ++ destruct (subseq_cons_inv _ _ _ Hb) as [Hb'|[s'' [Hx _]]].
              ** specialize (H2u _ Ha Hb'). lia.
              ** injection Hx as Hx _. congruence.
Qed.

Lemma lcs_spec :
  (exists s, subseq s ra /\ subseq s rb
     /\ List.length s = find_longest_common_subsequence ra rb)
  /\ (forall s, subseq s ra -> subseq s rb ->
        List.length s <= find_longest_common_subsequence ra rb).
Proof.
  unfold find_longest_common_subsequence. rewrite get_L by lia.
  destruct (L_spec (List.length ra) (List.length rb) (le_n _) (le_n _)) as [[s [Ha [Hb Hl]]] Hu].
  rewrite !firstn_all in *. split.
  - exists (rev s). repeat split.
    + apply subseq_rev_iff. rewrite rev_involutive. exact Ha.
    + apply subseq_rev_iff. rewrite rev_involutive. exact Hb.
    + rewrite length_rev. exact Hl.
  - intros s' Ha' Hb'. rewrite <- length_rev. apply Hu; apply subseq_rev; assumption.
Qed.

(** Adding a column never lowers a cell. *)
Lemma L_mono_j i j : i <= List.length ra -> S j <= List.length rb -> L i j <= L i (S j).
Proof.
  intros Hi Hj.
  destruct (L_spec i j Hi ltac:(lia)) as [[s [Ha [Hb Hl]]] _].
  destruct (L_spec i (S j) Hi Hj) as [_ Hu].
  rewrite <- Hl. apply Hu; [exact Ha|].
  rewrite (rev_firstn_pred rb (S j) EmptyString) by lia. replace (S j - 1) with j by lia.
  apply subseq_skip. exact Hb.
Qed.

Lemma L_mono_i i j : S i <= List.length ra -> j <= List.length rb -> L i j <= L (S i) j.
Proof.
  intros Hi Hj.
  destruct (L_spec i j ltac:(lia) Hj) as [[s [Ha [Hb Hl]]] _].
  destruct (L_spec (S i) j Hi Hj) as [_ Hu].
  rewrite <- Hl. apply Hu; [|exact Hb].
  rewrite (rev_firstn_pred ra (S i) EmptyString) by lia. replace (S i - 1) with i by lia.
  apply subseq_skip. exact Ha.
Qed.

(** The edit-distance table against the common-subsequence table. *)
Lemma lev_lcs i : forall j, i <= List.length ra -> j <= List.length rb ->
  Nat.max i j <= lev ra rb i j + L i j /\ lev ra rb i j + 2 * L i j <= i + j.
Proof.
  induction i as [|i IHi]; intros j Hi Hj.
  - simpl. lia.
  - revert Hj; induction j as [|j IHj]; intros Hj.
    + rewrite D_i_0, L_i_0. lia.
    + destruct (IHi j ltac:(lia) ltac:(lia)) as [H0a H0b].
      destruct (IHi (S j) ltac:(lia) ltac:(lia)) as [H1a H1b].
      destruct (IHj ltac:(lia)) as [H2a H2b].
      pose proof (L_mono_j i j ltac:(lia) Hj).
      rewrite D_S_S, L_S_S. unfold cell, lcs_cell.
      destruct (String.eqb _ _); lia.
Qed.

End LcsSpec.

(** [find_longest_common_subsequence] does not depend on the order of
    its arguments. *)
(** X1: [find_longest_common_subsequence] returns the length of a longest
    common subsequence: some common subsequence has that length and none is
    longer. *)
Theorem find_longest_common_subsequence_optimal (seq1 seq2 : list string) :
  (exists s, subseq s seq1 /\ subseq s seq2
     /\ List.length s = find_longest_common_subsequence seq1 seq2)
  /\ (forall s, subseq s seq1 -> subseq s seq2 ->
        List.length s <= find_longest_common_subsequence seq1 seq2).
Proof. apply lcs_spec. Qed.

(** X2: the result is at most the length of either sequence, and it is the
    length of [seq1] exactly when [seq1] is a subsequence of [seq2]. *)
Theorem find_longest_common_subsequence_bounds (seq1 seq2 : list string) :
  find_longest_common_subsequence seq1 seq2 <= Nat.min (List.length seq1) (List.length seq2)
  /\ (find_longest_common_subsequence seq1 seq2 = List.length seq1 <-> subseq seq1 seq2).
Proof.
  destruct (lcs_spec seq1 seq2) as [[s [Ha [Hb Hl]]] Hu].
  pose proof (subseq_length _ _ Ha) as La. pose proof (subseq_length _ _ Hb) as Lb.
  split; [lia|]. split.
  - intros E. assert (Hs : s = seq1).
    { clear Hu Hb La Lb. rewrite E in Hl. clear E. revert s Hl Ha.
      induction seq1 as [|x l IH]; intros s Hl Ha.
      - apply subseq_nil_r. exact Ha.
      - inversion Ha as [|? s' ? Hs'|? ? ? Hs']; subst.
        + f_equal. apply IH; [simpl in Hl; lia|exact Hs'].
        + apply subseq_length in Hs'. simpl in Hl. lia. }
    subst s. exact Hb.
  - intros Hsub. specialize (Hu seq1 (subseq_refl seq1) Hsub). lia.
Qed.

(** X3: the result does not depend on the order of the two sequences. *)
Theorem find_longest_common_subsequence_sym (seq1 seq2 : list string) :
  find_longest_common_subsequence seq1 seq2 = find_longest_common_subsequence seq2 seq1.
Proof.
  destruct (lcs_spec seq1 seq2) as [[s [Ha [Hb Hl]]] Hu].
  destruct (lcs_spec seq2 seq1) as [[s' [Hb' [Ha' Hl']]] Hu'].
  specialize (Hu s' Ha' Hb'). specialize (Hu' s Hb Ha). lia.
Qed.

(** ** More about [align_sequences] *)

Lemma frame_list_rev f al : frame_list f (rev al) = rev (frame_list f al).
Proof.
  unfold frame_list. induction al as [|o al IH]; [reflexivity|].
  simpl. rewrite flat_map_app, IH, rev_app_distr. simpl. rewrite app_nil_r.
  destruct (f o); reflexivity.
Qed.

Lemma nth_frame_number (A : list frame_hash) k :
  nth k (map frame_number A) 0 = frame_number (at_ default_fh A k).
Proof. unfold at_. change 0 with (frame_number default_fh). apply map_nth. Qed.

(** The frame numbers the loop emits, from [(i, j)] on. *)
Lemma trace_frames A B i j ops :
  trace A B i j ops -> i <= List.length A -> j <= List.length B ->
  frame_list ref_frame_nonins ops = rev (firstn i (map frame_number A))
  /\ frame_list ev_frame_nondel ops = rev (firstn j (map frame_number B)).
Proof.
  induction 1 as [|i j o i' j' ops Hij Hs Htr IH]; intros Hi Hj; [split; reflexivity|].
  pose proof (step_decr _ _ _ _ _ _ _ Hs) as Hd.
  destruct (IH ltac:(lia) ltac:(lia)) as [Hr He].
  apply step_cases in Hs. unfold frame_list in *. cbn [flat_map].
  destruct Hs as [[Hi0 [Hj0 [_ [-> [-> ->]]]]] | [[Hi0 [Hj0 [_ [_ [-> [-> ->]]]]]]
                 | [[Hi0 [_ [-> [-> ->]]]] | [Hj0 [_ [-> [-> ->]]]]]]];
    cbn [type ref_frame ev_frame ref_frame_nonins ev_frame_nondel app].
  - rewrite (rev_firstn_pred (map frame_number A) i 0), (rev_firstn_pred (map frame_number B) j 0)
      by (rewrite ?length_map; lia).
    rewrite !nth_frame_number, Hr, He. split; reflexivity.
  - rewrite (rev_firstn_pred (map frame_number A) i 0), (rev_firstn_pred (map frame_number B) j 0)
      by (rewrite ?length_map; lia).
    rewrite !nth_frame_number, Hr, He. split; reflexivity.
  - rewrite (rev_firstn_pred (map frame_number A) i 0) by (rewrite ?length_map; lia).
    rewrite !nth_frame_number, Hr, He. split; reflexivity.
  - rewrite (rev_firstn_pred (map frame_number B) j 0) by (rewrite ?length_map; lia).
    rewrite !nth_frame_number, Hr, He. split; reflexivity.
Qed.

(** Everything the backtracking establishes about the returned alignment. *)
Lemma align_facts (A B : list frame_hash) :
  exists al, align_sequences A B
             = Some (al, lev (ref_seq A) (ev_seq B) (List.length A) (List.length B))
    /\ cost al = lev (ref_seq A) (ev_seq B) (List.length A) (List.length B)
    /\ tokens ref_tok_nonins al = ref_seq A
    /\ tokens ev_tok_nondel al = ev_seq B
    /\ Forall (op_wf A B) al
    /\ frame_list ref_frame_nonins al = map frame_number A
    /\ frame_list ev_frame_nondel al = map frame_number B.
Proof.
  assert (Hm : List.length (ref_seq A) = List.length A) by apply length_map.
  assert (Hn : List.length (ev_seq B) = List.length B) by apply length_map.
  destruct (align_result A B) as [ops [Htr Hal]].
  destruct (trace_props A B _ _ _ Htr (le_n _) (le_n _)) as [Hc [Hr [He Hw]]].
  destruct (trace_frames A B _ _ _ Htr ltac:(lia) ltac:(lia)) as [Fr Fe].
  rewrite !firstn_length_all in Hr, He. rewrite Hm, Hn in *.
  rewrite <- (length_map frame_number A) in Fr. rewrite <- (length_map frame_number B) in Fe.
  rewrite firstn_length_all in Fr, Fe.
  exists (rev ops). split; [exact Hal|]. split; [rewrite cost_rev; exact Hc|].
  split; [rewrite tokens_rev, Hr; apply rev_involutive|].
  split; [rewrite tokens_rev, He; apply rev_involutive|].
  split; [apply Forall_rev; exact Hw|].
  rewrite !frame_list_rev, Fr, Fe, !rev_involutive. split; reflexivity.
Qed.

(** How the counts of [analyze_differences] read the two sides. *)
Lemma stats_sides al s0 :
  Forall shape_ok al ->
  let s := fold_left (fun s o => bump s (type o)) al s0 in
  matches s + substitutions s + deletions s
    = matches s0 + substitutions s0 + deletions s0 + List.length (tokens ref_tok_nonins al)
  /\ matches s + substitutions s + insertions s
    = matches s0 + substitutions s0 + insertions s0 + List.length (tokens ev_tok_nondel al).
Proof.
  revert s0; induction al as [|o al IH]; intros s0 Hs; simpl; [lia|].
  inversion Hs as [|? ? Ho Hs']; subst.
  destruct (IH (bump s0 (type o)) Hs') as [H1 H2].
  unfold tokens, shape_ok, ref_tok_nonins, ev_tok_nondel in *. cbn [flat_map].
  rewrite length_app.
  destruct (type o); simpl in H1, H2 |- *.
  - destruct Ho as [a [-> ->]]. simpl. lia.
  - destruct Ho as [a [b [-> ->]]]. simpl. lia.
  - destruct Ho as [a [-> _]]. simpl. lia.
  - destruct Ho as [b [_ ->]]. simpl. lia.
Qed.

(** The counts of [analyze_differences] on the alignment. *)
Lemma align_counts (A B : list frame_hash) :
  exists al, align_sequences A B
             = Some (al, lev (ref_seq A) (ev_seq B) (List.length A) (List.length B))
    /\ let st := analyze_differences al in
       matches st + substitutions st + deletions st = List.length A
    /\ matches st + substitutions st + insertions st = List.length B
    /\ matches st + substitutions st + insertions st + deletions st = List.length al
    /\ substitutions st + insertions st + deletions st
       = lev (ref_seq A) (ev_seq B) (List.length A) (List.length B).
Proof.
  destruct (align_facts A B) as (al & Hal & Hc & Hr & He & Hw & _).
  exists al. split; [exact Hal|]. cbv zeta. unfold analyze_differences.
  assert (Hs : Forall shape_ok al)
    by (eapply Forall_impl; [|exact Hw]; apply op_wf_shape).
  destruct (stats_sides al (mk_stats 0 0 0 0 (List.length al)) Hs) as [H1 H2].
  destruct (stats_fold al (mk_stats 0 0 0 0 (List.length al))) as [H3 [_ H4]].
  simpl in H1, H2, H3, H4.
  rewrite Hr in H1. rewrite He in H2. unfold ref_seq, ev_seq in H1, H2.
  rewrite length_map in H1, H2. lia.
Qed.

Lemma lev_le_max ra rb i j : lev ra rb i j <= Nat.max i j.
Proof.
  revert j; induction i as [|i IH]; intros j; [simpl; lia|].
  destruct j as [|j]; [rewrite D_i_0; lia|].
  pose proof (D_sub ra rb i j). specialize (IH j). lia.
Qed.

Lemma lev_diag r i : lev r r i i = 0.
Proof. induction i as [|i IH]; [reflexivity|]. rewrite D_match; [exact IH|reflexivity]. Qed.

Lemma lev_sym ra rb i : forall j, lev ra rb i j = lev rb ra j i.
Proof.
  induction i as [|i IHi]; intros j.
  - rewrite D_0_j, D_i_0. reflexivity.
  - induction j as [|j IHj].
    + rewrite D_i_0, D_0_j. reflexivity.
    + rewrite !D_S_S, IHj, (IHi j), (IHi (S j)). unfold cell.
      rewrite String.eqb_sym.
      destruct (String.eqb _ _); [reflexivity|]. f_equal.
      rewrite (Nat.min_comm (lev rb ra (S j) i)). reflexivity.
Qed.

Lemma cost_zero al : cost al = 0 -> Forall (fun o => type o = Match) al.
Proof.
  unfold cost. induction al as [|o al IH]; intros H; [constructor|].
  simpl in H. unfold is_edit at 1 in H.
  destruct (type o) eqn:E; simpl in H; try discriminate.
  constructor; [exact E|]. exact (IH H).
Qed.

Lemma cost_all_match al : Forall (fun o => type o = Match) al -> cost al = 0.
Proof.
  unfold cost. induction 1 as [|o al Ho _ IH]; [reflexivity|].
  simpl. unfold is_edit at 1. rewrite Ho. exact IH.
Qed.

Lemma tokens_all_match al :
  Forall shape_ok al -> Forall (fun o => type o = Match) al ->
  tokens ref_tok_nonins al = tokens ev_tok_nondel al.
Proof.
  intros Hs Hm. induction al as [|o al IH]; [reflexivity|].
  inversion Hs as [|? ? Ho Hs']; inversion Hm as [|? ? Ht Hm']; subst.
  unfold tokens in *. cbn [flat_map]. rewrite IH by assumption.
  unfold shape_ok, ref_tok_nonins, ev_tok_nondel in *. rewrite Ht in *.
  destruct Ho as [a [-> ->]]. reflexivity.
Qed.

Lemma firstn_Forall {X} (P : X -> Prop) k l : Forall P l -> Forall P (firstn k l).
Proof.
  revert l; induction k as [|k IH]; intros [|x l] H; simpl; try constructor.
  - inversion H; assumption.
  - apply IH. inversion H; assumption.
Qed.

Lemma Forall_Forall2_map {X Y} (P : X -> Y -> Prop) (f : X -> Y) l :
  Forall (fun x => P x (f x)) l -> Forall2 P l (map f l).
Proof. induction 1; constructor; assumption. Qed.

Lemma uint_digits_not_dashes d : uint_digits d <> "---"%string.
Proof. destruct d; simpl; discriminate. Qed.

Lemma frame_cell_pos k : 0 < k -> frame_cell (Some k) <> "---"%string.
Proof.
  intros H. unfold frame_cell. destruct (k =? 0) eqn:E; [apply Nat.eqb_eq in E; lia|].
  apply uint_digits_not_dashes.
Qed.

Lemma hash_cell_hex h :
  lower_hex_token h = true -> h <> EmptyString -> hash_cell (Some h) <> "---"%string.
Proof.
  intros Hh Hne. unfold hash_cell.
  destruct (String.eqb h EmptyString) eqn:E; [apply String.eqb_eq in E; contradiction|].
  intros ->. discriminate Hh.
Qed.

(** Columns of the detailed alignment for one operation of an alignment of
    well-formed frame lists. *)
Lemma op_cells (A B : list frame_hash) o :
  Forall (fun e => 0 < frame_number e /\ lower_hex_token (hash e) = true
                   /\ hash e <> EmptyString) A ->
  Forall (fun e => 0 < frame_number e /\ lower_hex_token (hash e) = true
                   /\ hash e <> EmptyString) B ->
  op_wf A B o ->
  (frame_cell (ref_frame o) = "---"%string <-> type o = Insertion)
  /\ (frame_cell (ev_frame o) = "---"%string <-> type o = Deletion)
  /\ (hash_cell (ref_hash o) = "---"%string <-> type o = Insertion)
  /\ (hash_cell (ev_hash o) = "---"%string <-> type o = Deletion).
Proof.
  intros HA HB. rewrite Forall_forall in HA, HB. unfold op_wf.
  destruct (type o).
  - intros (ea & eb & Ia & Ib & -> & -> & -> & -> & _).
    destruct (HA ea Ia) as (Pa & Ha & Na). destruct (HB eb Ib) as (Pb & Hb & Nb).
    pose proof (frame_cell_pos _ Pa). pose proof (frame_cell_pos _ Pb).
    pose proof (hash_cell_hex _ Ha Na). pose proof (hash_cell_hex _ Hb Nb).
    repeat split; intros; congruence.
  - intros (ea & eb & Ia & Ib & -> & -> & -> & -> & _).
    destruct (HA ea Ia) as (Pa & Ha & Na). destruct (HB eb Ib) as (Pb & Hb & Nb).
    pose proof (frame_cell_pos _ Pa). pose proof (frame_cell_pos _ Pb).
    pose proof (hash_cell_hex _ Ha Na). pose proof (hash_cell_hex _ Hb Nb).
    repeat split; intros; congruence.
  - intros (ea & Ia & -> & -> & -> & ->).
    destruct (HA ea Ia) as (Pa & Ha & Na).
    pose proof (frame_cell_pos _ Pa). pose proof (hash_cell_hex _ Ha Na).
    repeat split; intros; try reflexivity; congruence.
  - intros (eb & Ib & -> & -> & -> & ->).
    destruct (HB eb Ib) as (Pb & Hb & Nb).
    pose proof (frame_cell_pos _ Pb). pose proof (hash_cell_hex _ Hb Nb).
    repeat split; intros; try reflexivity; congruence.
Qed.

(** X4: the edit distance [d] of [align_sequences A B] and the longest common
    subsequence [l] of the two hash sequences satisfy
    [max(len A, len B) <= d + l] and [d + 2 l <= len A + len B]. *)
Theorem align_sequences_lcs_bounds (A B : list frame_hash) :
  exists al d, align_sequences A B = Some (al, d)
    /\ Nat.max (List.length A) (List.length B)
       <= d + find_longest_common_subsequence (ref_seq A) (ev_seq B)
    /\ d + 2 * find_longest_common_subsequence (ref_seq A) (ev_seq B)
       <= List.length A + List.length B.
Proof.
  assert (Hm : List.length (ref_seq A) = List.length A) by apply length_map.
  assert (Hn : List.length (ev_seq B) = List.length B) by apply length_map.
  destruct (align_facts A B) as (al & Hal & _).
  exists al, (lev (ref_seq A) (ev_seq B) (List.length A) (List.length B)).
  split; [exact Hal|].
  unfold find_longest_common_subsequence. rewrite get_L by lia. rewrite Hm, Hn.
  apply lev_lcs; lia.
Qed.

(** X5: the distance is 0 exactly when the two hash sequences are equal, and
    then every operation of the alignment is a match. *)
Theorem align_sequences_zero_distance (A B : list frame_hash) :
  exists al d, align_sequences A B = Some (al, d)
    /\ (d = 0 <-> ref_seq A = ev_seq B)
    /\ (d = 0 -> Forall (fun o => type o = Match) al).
Proof.
  destruct (align_facts A B) as (al & Hal & Hc & Hr & He & Hw & _).
  assert (Hs : Forall shape_ok al)
    by (eapply Forall_impl; [|exact Hw]; apply op_wf_shape).
  do 2 eexists. split; [exact Hal|].
  assert (Hz : lev (ref_seq A) (ev_seq B) (List.length A) (List.length B) = 0
               -> Forall (fun o => type o = Match) al)
    by (intros H0; apply cost_zero; congruence).
  split; [|exact Hz]. split.
  - intros H0. rewrite <- Hr, <- He. apply tokens_all_match; [exact Hs|exact (Hz H0)].
  - intros Heq. rewrite Heq.
    replace (List.length A) with (List.length B).
    + apply lev_diag.
    + rewrite <- (length_map hash A), <- (length_map hash B).
      change (map hash A) with (ref_seq A). change (map hash B) with (ev_seq B).
      rewrite Heq. reflexivity.
Qed.

(** X6: the distance lies between the difference of the lengths and the
    larger length. *)
Theorem align_sequences_distance_bounds (A B : list frame_hash) :
  exists al d, align_sequences A B = Some (al, d)
    /\ List.length A - List.length B <= d
    /\ List.length B - List.length A <= d
    /\ d <= Nat.max (List.length A) (List.length B).
Proof.
  destruct (align_counts A B) as (al & Hal & H1 & H2 & H3 & H4).
  do 2 eexists. split; [exact Hal|].
  pose proof (lev_le_max (ref_seq A) (ev_seq B) (List.length A) (List.length B)). lia.
Qed.

(** X7: matches, substitutions and deletions of [analyze_differences] add up
    to [len A]; matches, substitutions and insertions to [len B]. *)
Theorem align_sequences_side_counts (A B : list frame_hash) :
  exists al d, align_sequences A B = Some (al, d)
    /\ matches (analyze_differences al) + substitutions (analyze_differences al)
       + deletions (analyze_differences al) = List.length A
    /\ matches (analyze_differences al) + substitutions (analyze_differences al)
       + insertions (analyze_differences al) = List.length B
    /\ matches (analyze_differences al) <= Nat.min (List.length A) (List.length B).
Proof.
  destruct (align_counts A B) as (al & Hal & H1 & H2 & H3 & H4).
  do 2 eexists. split; [exact Hal|]. lia.
Qed.

(** X8: the alignment has [len A + len B - (matches + substitutions)]
    operations, at least [max(len A, len B)] and at most [len A + len B]. *)
Theorem align_sequences_length (A B : list frame_hash) :
  exists al d, align_sequences A B = Some (al, d)
    /\ List.length al + matches (analyze_differences al)
       + substitutions (analyze_differences al) = List.length A + List.length B
    /\ Nat.max (List.length A) (List.length B) <= List.length al
    /\ List.length al <= List.length A + List.length B.
Proof.
  destruct (align_counts A B) as (al & Hal & H1 & H2 & H3 & H4).
  do 2 eexists. split; [exact Hal|]. lia.
Qed.

(** X9: swapping the two sequences does not change the distance. *)
Theorem align_sequences_distance_sym (A B : list frame_hash) :
  exists al d al' d', align_sequences A B = Some (al, d)
    /\ align_sequences B A = Some (al', d') /\ d = d'.
Proof.
  destruct (align_facts A B) as (al & Hal & _).
  destruct (align_facts B A) as (al' & Hal' & _).
  do 4 eexists. split; [exact Hal|]. split; [exact Hal'|].
  apply lev_sym.
Qed.

(** X10: the [ref_frame] of the non-insertions are the frame numbers of [A] in
    order, the [ev_frame] of the non-deletions those of [B]. *)
Theorem align_sequences_frames (A B : list frame_hash) :
  exists al d, align_sequences A B = Some (al, d)
    /\ frame_list ref_frame_nonins al = map frame_number A
    /\ frame_list ev_frame_nondel al = map frame_number B.
Proof.
  destruct (align_facts A B) as (al & Hal & _ & _ & _ & _ & Fr & Fe).
  do 2 eexists. split; [exact Hal|]. split; assumption.
Qed.

(** X11: for frames with positive numbers and non-empty lowercase hexadecimal
    hashes, a cell of the detailed alignment table shows [---] exactly on
    the reference side of an insertion and the evidence side of a deletion;
    the rows shown and the [... more operations] count add up to the
    alignment's length. *)
Theorem alignment_rows_dashes (A B : list frame_hash)
  (HA : Forall (fun e => 0 < frame_number e /\ lower_hex_token (hash e) = true
                         /\ hash e <> EmptyString) A)
  (HB : Forall (fun e => 0 < frame_number e /\ lower_hex_token (hash e) = true
                         /\ hash e <> EmptyString) B) :
  exists al d, align_sequences A B = Some (al, d)
    /\ Forall2 (fun o r =>
         (ref_frame_col r = "---"%string <-> type o = Insertion)
         /\ (ev_frame_col r = "---"%string <-> type o = Deletion)
         /\ (ref_hash_col r = "---"%string <-> type o = Insertion)
         /\ (ev_hash_col r = "---"%string <-> type o = Deletion))
       (firstn 10 al) (alignment_rows al)
    /\ List.length (alignment_rows al)
       + match more_operations al with Some k => k | None => 0 end = List.length al.
Proof.
  destruct (align_facts A B) as (al & Hal & _ & _ & _ & Hw & _).
  do 2 eexists. split; [exact Hal|]. split.
  - unfold alignment_rows. apply Forall_Forall2_map. apply firstn_Forall.
    eapply Forall_impl; [|exact Hw]. intros o Ho. cbn [ref_frame_col ev_frame_col
      ref_hash_col ev_hash_col]. exact (op_cells A B o HA HB Ho).
  - unfold alignment_rows, more_operations. rewrite length_map, length_firstn.
    destruct (10 <? List.length al) eqn:E; [apply Nat.ltb_lt in E|apply Nat.ltb_ge in E]; lia.
Qed.

Lemma alignment_rows_dashes_witness :
  Forall (fun e => 0 < frame_number e /\ lower_hex_token (hash e) = true
                   /\ hash e <> EmptyString)
    [mk_frame_hash 1 "00ff"; mk_frame_hash 2 "0f0f"]
  /\ exists al d,
    align_sequences [mk_frame_hash 1 "00ff"; mk_frame_hash 2 "0f0f"]
                    [mk_frame_hash 1 "00ff"; mk_frame_hash 2 "ffff"; mk_frame_hash 3 "0f0f"]
      = Some (al, d)
    /\ Forall2 (fun o r =>
         (ref_frame_col r = "---"%string <-> type o = Insertion)
         /\ (ev_frame_col r = "---"%string <-> type o = Deletion)
         /\ (ref_hash_col r = "---"%string <-> type o = Insertion)
         /\ (ev_hash_col r = "---"%string <-> type o = Deletion))
       (firstn 10 al) (alignment_rows al)
    /\ List.length (alignment_rows al)
       + match more_operations al with Some k => k | None => 0 end = List.length al.
Proof.
  split.
  - repeat constructor; discriminate.
  - apply alignment_rows_dashes; repeat constructor; discriminate.
Defined.

(** ** Ranges of [int(s, 16)] and of the Hamming distance *)

Lemma hex_val_range c v : hex_val c = Some v -> (0 <= v < 16)%Z.
Proof.
  unfold hex_val.
  destruct ((48 <=? nat_of_ascii c) && (nat_of_ascii c <=? 57)) eqn:E1.
  { intros H; injection H as <-. apply andb_true_iff in E1 as [_ E]. apply Nat.leb_le in E. lia. }
  destruct ((97 <=? nat_of_ascii c) && (nat_of_ascii c <=? 102)) eqn:E2.
  { intros H; injection H as <-. apply andb_true_iff in E2 as [_ E]. apply Nat.leb_le in E. lia. }
  destruct ((65 <=? nat_of_ascii c) && (nat_of_ascii c <=? 70)) eqn:E3; [|discriminate].
  intros H; injection H as <-. apply andb_true_iff in E3 as [_ E]. apply Nat.leb_le in E. lia.
Qed.

Lemma hex_digits_range_n n : forall l ds, List.length l <= n ->
  hex_digits l = Some ds ->
  List.length ds <= List.length l /\ Forall (fun v => (0 <= v < 16)%Z) ds.
Proof.
  induction n as [|n IH]; intros l ds Hl H.
  { destruct l; [|simpl in Hl; lia]. simpl in H. injection H as <-. simpl. split; [lia|constructor]. }
  destruct l as [|c l]; [simpl in H; injection H as <-; simpl; split; [lia|constructor]|].
  simpl in H, Hl.
  destruct (Ascii.eqb c "_"%char).
  - destruct l as [|d l]; [discriminate|].
    destruct (hex_val d) as [v|] eqn:Ev; [|discriminate].
    destruct (hex_digits l) as [ds'|] eqn:Ed; [|discriminate].
    injection H as <-. simpl in Hl. destruct (IH l ds' ltac:(lia) Ed) as [H1 H2].
    split; [simpl; lia|]. constructor; [exact (hex_val_range _ _ Ev)|exact H2].
  - destruct (hex_val c) as [v|] eqn:Ev; [|discriminate].
    destruct (hex_digits l) as [ds'|] eqn:Ed; [|discriminate].
    injection H as <-. destruct (IH l ds' ltac:(lia) Ed) as [H1 H2].
    split; [simpl; lia|]. constructor; [exact (hex_val_range _ _ Ev)|exact H2].
Qed.

Lemma horner_range ds :
  Forall (fun v => (0 <= v < 16)%Z) ds ->
  (0 <= horner ds < 16 ^ Z.of_nat (List.length ds))%Z.
Proof.
  induction ds as [|d ds IH] using rev_ind; intros H; [unfold horner; simpl; lia|].
  apply Forall_app in H as [H Hd]. inversion Hd as [|? ? Hd' _]; subst.
  specialize (IH H). rewrite horner_snoc, length_app. simpl List.length.
  rewrite Nat2Z.inj_add, Z.pow_add_r by lia. simpl (16 ^ Z.of_nat 1)%Z. nia.
Qed.

Lemma hex_digits_bound l ds :
  hex_digits l = Some ds -> (0 <= horner ds < 16 ^ Z.of_nat (List.length l))%Z.
Proof.
  intros H. destruct (hex_digits_range_n _ l ds (le_n _) H) as [H1 H2].
  pose proof (horner_range ds H2).
  assert (16 ^ Z.of_nat (List.length ds) <= 16 ^ Z.of_nat (List.length l))%Z
    by (apply Z.pow_le_mono_r; lia).
  lia.
Qed.

Lemma parse_magnitude_digits l z :
  parse_magnitude l = Some z ->
  exists l' ds, List.length l' <= List.length l /\ hex_digits l' = Some ds /\ z = horner ds.
Proof.
  intros H. destruct l as [|c r]; [discriminate|].
  destruct c as [[] [] [] [] [] [] [] []]; cbn [parse_magnitude] in H;
    repeat match type of H with
           | context [match ?e with _ => _ end] => destruct e eqn:?
           end;
    try discriminate; injection H as <-;
    match goal with
    | E : hex_digits ?l' = Some ?ds |- _ =>
        exists l', ds; split; [simpl; lia | split; [exact E | reflexivity]]
    end.
Qed.

Lemma parse_signed_magnitude l z :
  parse_signed l = Some z ->
  exists l' w, List.length l' <= List.length l /\ parse_magnitude l' = Some w
    /\ (z = w \/ z = (- w)%Z).
Proof.
  intros H. destruct l as [|c r]; [discriminate|].
  destruct c as [[] [] [] [] [] [] [] []]; cbn [parse_signed] in H;
    first
      [ match type of H with
        | parse_magnitude ?l' = Some _ =>
            exists l', z; split; [simpl; lia | split; [exact H | left; reflexivity]]
        end
      | destruct (parse_magnitude r) as [w|] eqn:E; [|discriminate];
        simpl in H; injection H as <-;
        exists r, w; split; [simpl; lia | split; [exact E | right; reflexivity]] ].
Qed.

Lemma drop_space_length l : List.length (drop_space l) <= List.length l.
Proof. induction l as [|c l IH]; simpl; [lia|]. destruct (is_space c); simpl; lia. Qed.

Lemma strip_length l : List.length (strip l) <= List.length l.
Proof.
  unfold strip. rewrite length_rev. pose proof (drop_space_length l).
  pose proof (drop_space_length (rev (drop_space l))). rewrite length_rev in *. lia.
Qed.

(** [int(s, 16)] has at most [len(s)] hexadecimal digits. *)
Lemma int16_bound s z :
  int16 s = Some z -> (Z.abs z < 16 ^ Z.of_nat (String.length s))%Z.
Proof.
  unfold int16. intros H.
  destruct (parse_signed_magnitude _ _ H) as (l' & w & Hl & Hw & Hz).
  destruct (parse_magnitude_digits _ _ Hw) as (l'' & ds & Hl' & Hd & ->).
  pose proof (hex_digits_bound _ _ Hd).
  pose proof (strip_length (list_ascii_of_string s)).
  rewrite length_list_ascii_of_string in *.
  assert (16 ^ Z.of_nat (List.length l'') <= 16 ^ Z.of_nat (String.length s))%Z
    by (apply Z.pow_le_mono_r; lia).
  destruct Hz as [-> | ->]; lia.
Qed.

Lemma pos_popcount_lt p : forall K, (Zpos p < 2 ^ Z.of_nat K)%Z -> pos_popcount p <= K.
Proof.
  induction p as [p IH|p IH|]; intros K H; destruct K as [|K];
    try (simpl in H; lia); simpl pos_popcount;
    rewrite Nat2Z.inj_succ, Z.pow_succ_r in H by lia.
  - rewrite Pos2Z.inj_xI in H. specialize (IH K ltac:(lia)). lia.
  - rewrite Pos2Z.inj_xO in H. specialize (IH K ltac:(lia)). lia.
  - lia.
Qed.

Lemma pos_popcount_le p : forall K, 1 <= K -> (Zpos p <= 2 ^ Z.of_nat K)%Z -> pos_popcount p <= K.
Proof.
  intros K HK H. destruct K as [|K]; [lia|].
  rewrite Nat2Z.inj_succ, Z.pow_succ_r in H by lia.
  destruct p as [p|p|]; simpl pos_popcount.
  - rewrite Pos2Z.inj_xI in H. pose proof (pos_popcount_lt p K ltac:(lia)). lia.
  - rewrite Pos2Z.inj_xO in H. apply pos_popcount_lt.
    rewrite Nat2Z.inj_succ, Z.pow_succ_r by lia.
    pose proof (Z.pow_pos_nonneg 2 (Z.of_nat K)). lia.
  - lia.
Qed.

Lemma div_pow_cases x M :
  (0 < M)%Z -> (-M <= x < M)%Z <-> (x / M = 0 \/ x / M = -1)%Z.
Proof.
  intros HM. pose proof (Z.div_mod x M ltac:(lia)). pose proof (Z.mod_pos_bound x M HM).
  split.
  - intros Hx. destruct (Z_lt_ge_dec (x / M) (-1)) as [Hq|Hq].
    + assert (M * (x / M) <= M * -2)%Z by (apply Z.mul_le_mono_pos_l; lia). lia.
    + destruct (Z_lt_ge_dec 0 (x / M)) as [Hq'|Hq'].
      * assert (M * 1 <= M * (x / M))%Z by (apply Z.mul_le_mono_pos_l; lia). lia.
      * lia.
  - intros [Hq|Hq]; rewrite Hq in *; lia.
Qed.

(** The XOR of two numbers of magnitude below [2 ^ K] has at most [K] one
    bits, in [bin(x).count('1')]'s sense. *)
Lemma xor_popcount_bound x y K :
  1 <= K -> (Z.abs x < 2 ^ Z.of_nat K)%Z -> (Z.abs y < 2 ^ Z.of_nat K)%Z ->
  bin_count_ones (Z.lxor x y) <= K.
Proof.
  intros HK Hx Hy.
  set (M := (2 ^ Z.of_nat K)%Z) in *.
  assert (HM : (0 < M)%Z) by (apply Z.pow_pos_nonneg; lia).
  assert (Hs : forall z, Z.shiftr z (Z.of_nat K) = (z / M)%Z)
    by (intros z; apply Z.shiftr_div_pow2; lia).
  assert (Hxq : (x / M = 0 \/ x / M = -1)%Z) by (apply div_pow_cases; lia).
  assert (Hyq : (y / M = 0 \/ y / M = -1)%Z) by (apply div_pow_cases; lia).
  assert (Hq : (Z.lxor x y / M = 0 \/ Z.lxor x y / M = -1)%Z).
  { rewrite <- !Hs in *. rewrite Z.shiftr_lxor.
    destruct Hxq as [-> | ->], Hyq as [-> | ->]; cbv; auto. }
  apply div_pow_cases in Hq; [|exact HM].
  destruct (Z.lxor x y) as [|p|p]; simpl; [lia| |].
  - apply pos_popcount_lt. lia.
  - apply pos_popcount_le; [exact HK|]. lia.
Qed.

Lemma similarity_range (mb hd : nat) :
  0 < mb -> hd <= mb ->
  (0 <= (inject_Z (Z.of_nat mb - Z.of_nat hd) / inject_Z (Z.of_nat mb)) * 100 <= 100)%Q.
Proof.
  intros Hm Hh.
  assert (Hb : (0 < inject_Z (Z.of_nat mb))%Q)
    by (change 0%Q with (inject_Z 0); rewrite <- Zlt_Qlt; lia).
  assert (H0 : (0 <= inject_Z (Z.of_nat mb - Z.of_nat hd) / inject_Z (Z.of_nat mb))%Q).
  { apply Qle_shift_div_l; [exact Hb|]. rewrite Qmult_0_l.
    change 0%Q with (inject_Z 0). rewrite <- Zle_Qle. lia. }
  assert (H1 : (inject_Z (Z.of_nat mb - Z.of_nat hd) / inject_Z (Z.of_nat mb) <= 1)%Q).
  { apply Qle_shift_div_r; [exact Hb|]. rewrite Qmult_1_l. rewrite <- Zle_Qle. lia. }
  lra.
Qed.

(** Everything [calculate_hamming_distance] returns is in range. *)
Lemma calculate_range a b r :
  calculate_hamming_distance a b = Some r ->
  max_bits r = 4 * String.length a /\ 0 < max_bits r
  /\ hamming_distance r <= max_bits r
  /\ (0 <= similarity_percentage r <= 100)%Q.
Proof.
  intros H. assert (Hl : String.length a = String.length b).
  { unfold calculate_hamming_distance in H.
    destruct (_ || _); [discriminate|].
    destruct (String.length a =? String.length b) eqn:E; [|discriminate].
    apply Nat.eqb_eq in E. exact E. }
  destruct (calculate_some a b r H) as (x & y & Hx & Hy & Hd & Hm & Hne & Hs).
  apply int16_bound in Hx, Hy. rewrite <- Hl in Hy.
  assert (Hp : (16 ^ Z.of_nat (String.length a) = 2 ^ Z.of_nat (4 * String.length a))%Z).
  { rewrite Nat2Z.inj_mul, Z.pow_mul_r by lia. reflexivity. }
  rewrite Hp in Hx, Hy.
  pose proof (xor_popcount_bound x y (4 * String.length a) ltac:(lia) Hx Hy).
  assert (hamming_distance r <= max_bits r) by lia.
  split; [lia|]. split; [lia|]. split; [assumption|].
  rewrite Hs. apply similarity_range; lia.
Qed.

(** ** The statistics of [analyze] *)

Lemma op_score_range o : (0 <= op_score o <= 100)%Q.
Proof.
  unfold op_score. destruct (type o); try (split; discriminate).
  destruct (calculate_hamming_distance _ _) as [r|] eqn:E; [|split; discriminate].
  exact (proj2 (proj2 (proj2 (calculate_range _ _ _ E)))).
Qed.

Lemma sub_score_range o : Forall (fun s => 0 <= s <= 100)%Q (sub_score o).
Proof.
  unfold sub_score. destruct (type o); try constructor.
  destruct (calculate_hamming_distance _ _) as [r|] eqn:E; constructor; [|constructor].
  exact (proj2 (proj2 (proj2 (calculate_range _ _ _ E)))).
Qed.

Lemma scores_range al :
  Forall (fun s => 0 <= s <= 100)%Q (fst (similarity_scores al))
  /\ Forall (fun s => 0 <= s <= 100)%Q (snd (similarity_scores al)).
Proof.
  unfold similarity_scores. rewrite scores_fold. simpl. split.
  - apply Forall_map, Forall_forall. intros o _. apply op_score_range.
  - apply Forall_flat_map, Forall_forall. intros o _. apply sub_score_range.
Qed.

Lemma py_min_spec r : forall x,
  Forall (fun y => py_min x r <= y)%Q (x :: r) /\ In (py_min x r) (x :: r).
Proof.
  induction r as [|y r IH]; intros x.
  - simpl. split; [constructor; [apply Qle_refl|constructor]|left; reflexivity].
  - unfold py_min in *. cbn [fold_left]. unfold Qlt_bool.
    destruct (Qle_bool x y) eqn:E; cbn [negb].
    + apply Qle_bool_iff in E. destruct (IH x) as [F I].
      inversion F as [|? ? Fx Fr]; subst.
      split; [constructor; [exact Fx|constructor; [apply (Qle_trans _ _ _ Fx E)|exact Fr]]|].
      destruct I as [I|I]; [left; exact I|right; right; exact I].
    + assert (Hyx : (y <= x)%Q) by (apply Qlt_le_weak, Qnot_le_lt; intros C;
        apply Qle_bool_iff in C; congruence).
      destruct (IH y) as [F I]. inversion F as [|? ? Fy Fr]; subst.
      split; [constructor; [apply (Qle_trans _ _ _ Fy Hyx)|constructor; assumption]|].
      right; exact I.
Qed.

Lemma py_max_spec r : forall x,
  Forall (fun y => y <= py_max x r)%Q (x :: r) /\ In (py_max x r) (x :: r).
Proof.
  induction r as [|y r IH]; intros x.
  - simpl. split; [constructor; [apply Qle_refl|constructor]|left; reflexivity].
  - unfold py_max in *. cbn [fold_left]. unfold Qlt_bool.
    destruct (Qle_bool y x) eqn:E; cbn [negb].
    + apply Qle_bool_iff in E. destruct (IH x) as [F I].
      inversion F as [|? ? Fx Fr]; subst.
      split; [constructor; [exact Fx|constructor; [apply (Qle_trans _ _ _ E Fx)|exact Fr]]|].
      destruct I as [I|I]; [left; exact I|right; right; exact I].
    + assert (Hxy : (x <= y)%Q) by (apply Qlt_le_weak, Qnot_le_lt; intros C;
        apply Qle_bool_iff in C; congruence).
      destruct (IH y) as [F I]. inversion F as [|? ? Fy Fr]; subst.
      split; [constructor; [apply (Qle_trans _ _ _ Hxy Fy)|constructor; assumption]|].
      right; exact I.
Qed.

Lemma Qsum_range s :
  Forall (fun v => 0 <= v <= 100)%Q s ->
  (0 <= Qsum s <= inject_Z (Z.of_nat (List.length s)) * 100)%Q.
Proof.
  induction 1 as [|v s Hv _ IH]; [unfold Qsum; cbn [fold_right List.length Z.of_nat]; change (inject_Z 0) with 0%Q; lra|].
  cbn [Qsum fold_right List.length]. fold (Qsum s).
  rewrite Nat2Z.inj_succ, <- Z.add_1_r, inject_Z_plus. change (inject_Z 1) with 1%Q. lra.
Qed.

Lemma average_range s :
  Forall (fun v => 0 <= v <= 100)%Q s -> s <> [] ->
  (0 <= Qsum s / inject_Z (Z.of_nat (List.length s)) <= 100)%Q.
Proof.
  intros F Hne. destruct (Qsum_range s F) as [H0 H1].
  assert (Hl : (0 < inject_Z (Z.of_nat (List.length s)))%Q).
  { change 0%Q with (inject_Z 0). rewrite <- Zlt_Qlt. destruct s; [congruence|simpl; lia]. }
  split.
  - apply Qle_shift_div_l; [exact Hl|]. lra.
  - apply Qle_shift_div_r; [exact Hl|]. lra.
Qed.

Lemma scores_length al : List.length (fst (similarity_scores al)) = List.length al.
Proof. unfold similarity_scores. rewrite scores_fold. simpl. apply length_map. Qed.

(** The three ranges of the summary split the scores. *)
Lemma ranges_split s :
  List.length (filter (fun v => Qle_bool 80 v) s)
  + List.length (filter (fun v => Qle_bool 50 v && Qlt_bool v 80) s)
  + List.length (filter (fun v => Qlt_bool v 50) s) = List.length s.
Proof.
  induction s as [|v s IH]; [reflexivity|]. cbn [filter]. unfold Qlt_bool in *.
  destruct (Qle_bool 80 v) eqn:E8, (Qle_bool 50 v) eqn:E5; cbn [negb andb List.length]; try lia.
  apply Qle_bool_iff in E8. assert (C : (50 <= v)%Q) by (eapply Qle_trans; [|exact E8]; discriminate).
  apply Qle_bool_iff in C. congruence.
Qed.

(** Alignments of equal token sequences. *)
Lemma all_match_scores al :
  Forall (fun o => type o = Match) al ->
  similarity_scores al = (repeat 100%Q (List.length al), []).
Proof.
  intros H. unfold similarity_scores. rewrite scores_fold. simpl. f_equal.
  - induction H as [|o al Ho _ IH]; [reflexivity|]. simpl. rewrite IH. unfold op_score.
    rewrite Ho. reflexivity.
  - induction H as [|o al Ho _ IH]; [reflexivity|]. simpl. rewrite IH. unfold sub_score.
    rewrite Ho. reflexivity.
Qed.

Lemma py_min_repeat k : py_min 100 (repeat 100%Q k) = 100%Q.
Proof. unfold py_min. induction k as [|k IH]; [reflexivity|]. simpl. exact IH. Qed.

Lemma py_max_repeat k : py_max 100 (repeat 100%Q k) = 100%Q.
Proof. unfold py_max. induction k as [|k IH]; [reflexivity|]. simpl. exact IH. Qed.

Lemma Qsum_repeat k : (Qsum (repeat 100%Q k) == inject_Z (Z.of_nat k) * 100)%Q.
Proof.
  induction k as [|k IH]; [reflexivity|]. cbn [repeat Qsum fold_right]. fold (Qsum (repeat 100%Q k)).
  rewrite IH, Nat2Z.inj_succ, <- Z.add_1_r, inject_Z_plus. simpl (inject_Z 1). ring.
Qed.

Lemma filter_repeat_true (p : Q -> bool) k :
  p 100%Q = true -> filter p (repeat 100%Q k) = repeat 100%Q k.
Proof. intros Hp. induction k as [|k IH]; [reflexivity|]. simpl. rewrite Hp, IH. reflexivity. Qed.

Lemma filter_repeat_false (p : Q -> bool) k :
  p 100%Q = false -> filter p (repeat 100%Q k) = [].
Proof. intros Hp. induction k as [|k IH]; [reflexivity|]. simpl. rewrite Hp. exact IH. Qed.

Lemma align_identical (A B : list frame_hash) :
  ref_seq A = ev_seq B ->
  exists al, align_sequences A B = Some (al, 0)
    /\ Forall (fun o => type o = Match) al /\ List.length al = List.length A.
Proof.
  intros Heq.
  destruct (align_facts A B) as (al & Hal & Hc & Hr & He & Hw & _).
  destruct (align_counts A B) as (al' & Hal' & H1 & H2 & H3 & H4).
  rewrite Hal in Hal'. injection Hal' as <-.
  assert (Hlen : List.length A = List.length B).
  { rewrite <- (length_map hash A), <- (length_map hash B).
    change (map hash A) with (ref_seq A). change (map hash B) with (ev_seq B).
    rewrite Heq. reflexivity. }
  assert (Hz : lev (ref_seq A) (ev_seq B) (List.length A) (List.length B) = 0)
    by (rewrite Heq, Hlen; apply lev_diag).
  rewrite Hz in Hal, Hc, H4. exists al. split; [exact Hal|].
  split; [apply cost_zero; exact Hc|]. lia.
Qed.

(** X12: [calculate_hamming_distance] is symmetric in its two tokens. *)
Theorem calculate_hamming_distance_sym (a b : string) :
  calculate_hamming_distance a b = calculate_hamming_distance b a.
Proof.
  unfold calculate_hamming_distance.
  rewrite (orb_comm (String.length b =? 0)), (Nat.eqb_sym (String.length b) (String.length a)).
  destruct (_ || _); [reflexivity|].
  destruct (String.length a =? String.length b) eqn:E; [|reflexivity]. cbn [negb].
  apply Nat.eqb_eq in E. rewrite E.
  destruct (int16 a), (int16 b); try reflexivity. rewrite Z.lxor_comm. reflexivity.
Qed.

(** X13: a result has [max_bits = 4 len hash1 > 0],
    [hamming_distance <= max_bits] and a similarity in [0, 100]. *)
Theorem calculate_hamming_distance_range (a b : string) (r : hamming_result) :
  calculate_hamming_distance a b = Some r ->
  max_bits r = 4 * String.length a /\ 0 < max_bits r
  /\ hamming_distance r <= max_bits r
  /\ (0 <= similarity_percentage r <= 100)%Q.
Proof. apply calculate_range. Qed.

Lemma calculate_hamming_distance_range_witness :
  exists r, calculate_hamming_distance "0f"%string "ff"%string = Some r
    /\ max_bits r = 4 * String.length "0f"%string /\ 0 < max_bits r
    /\ hamming_distance r <= max_bits r
    /\ (0 <= similarity_percentage r <= 100)%Q.
Proof.
  eexists. split; [reflexivity|].
  apply (calculate_hamming_distance_range "0f"%string "ff"%string). reflexivity.
Defined.

(** X14: the statistics of [analyze] are 0 for an empty alignment; otherwise
    [0 <= min <= max <= 100], [min] and [max] are scores bounding all
    scores, and the averages lie in [0, 100]. *)
Theorem similarity_statistics_range (alignment : list op) :
  (alignment = [] ->
     min_similarity alignment = 0%Q /\ max_similarity alignment = 0%Q
     /\ avg_similarity alignment = 0%Q /\ avg_substitution_similarity alignment = 0%Q)
  /\ (alignment <> [] ->
     (0 <= min_similarity alignment)%Q
     /\ (min_similarity alignment <= max_similarity alignment)%Q
     /\ (max_similarity alignment <= 100)%Q
     /\ In (min_similarity alignment) (fst (similarity_scores alignment))
     /\ In (max_similarity alignment) (fst (similarity_scores alignment))
     /\ Forall (fun s => min_similarity alignment <= s <= max_similarity alignment)%Q
          (fst (similarity_scores alignment))
     /\ (0 <= avg_similarity alignment <= 100)%Q)
  /\ (0 <= avg_substitution_similarity alignment <= 100)%Q.
Proof.
  destruct (scores_range alignment) as [F1 F2].
  pose proof (scores_length alignment) as Hl.
  split; [|split].
  - intros ->. repeat split.
  - intros Hne. unfold min_similarity, max_similarity, avg_similarity.
    destruct (fst (similarity_scores alignment)) as [|x r] eqn:E.
    { destruct alignment; [congruence|discriminate]. }
    destruct (py_min_spec r x) as [Fm Im]. destruct (py_max_spec r x) as [FM IM].
    rewrite Forall_forall in F1, Fm, FM.
    assert (Hmn : (py_min x r <= py_max x r)%Q) by exact (Fm _ IM).
    split; [exact (proj1 (F1 _ Im))|]. split; [exact Hmn|].
    split; [exact (proj2 (F1 _ IM))|]. split; [exact Im|]. split; [exact IM|].
    split; [apply Forall_forall; intros s Hs; split; [exact (Fm s Hs)|exact (FM s Hs)]|].
    apply average_range; [apply Forall_forall; exact F1|discriminate].
  - unfold avg_substitution_similarity.
    destruct (snd (similarity_scores alignment)) as [|x r] eqn:E; [split; discriminate|].
    apply average_range; [exact F2|discriminate].
Qed.

(** X15: the high, medium and low similarity counts add up to the number of
    operations. *)
Theorem similarity_ranges_partition (alignment : list op) :
  high_similarity alignment + medium_similarity alignment + low_similarity alignment
  = List.length alignment.
Proof.
  unfold high_similarity, medium_similarity, low_similarity.
  rewrite ranges_split. apply scores_length.
Qed.

(** X16: for equal hash sequences the alignment has distance 0 and
    [len A] operations, all scored high; minimum, maximum and average are
    100 (for non-empty [A]) and the substitution average is 0. *)
Theorem identical_sequences_statistics (A B : list frame_hash) :
  ref_seq A = ev_seq B ->
  exists al, align_sequences A B = Some (al, 0)
    /\ List.length al = List.length A
    /\ high_similarity al = List.length A /\ medium_similarity al = 0
    /\ low_similarity al = 0 /\ avg_substitution_similarity al = 0%Q
    /\ (A <> [] ->
        min_similarity al = 100%Q /\ max_similarity al = 100%Q
        /\ (avg_similarity al == 100)%Q).
Proof.
  intros Heq. destruct (align_identical A B Heq) as (al & Hal & Hm & Hl).
  exists al. split; [exact Hal|]. split; [exact Hl|].
  unfold high_similarity, medium_similarity, low_similarity, avg_substitution_similarity,
    min_similarity, max_similarity, avg_similarity.
  rewrite (all_match_scores al Hm). cbn [fst snd].
  rewrite filter_repeat_true by reflexivity. rewrite !filter_repeat_false by reflexivity.
  rewrite repeat_length. split; [exact Hl|]. split; [reflexivity|]. split; [reflexivity|].
  split; [reflexivity|]. intros Hne.
  destruct (List.length al) as [|k] eqn:E; [destruct A; [congruence|discriminate]|].
  cbn [repeat]. rewrite py_min_repeat, py_max_repeat. split; [reflexivity|]. split; [reflexivity|].
  change (100%Q :: repeat 100%Q k) with (repeat 100%Q (S k)).
  rewrite Qsum_repeat. field. change 0%Q with (inject_Z 0). rewrite inject_Z_injective. lia.
Qed.

Lemma identical_sequences_statistics_witness :
  ref_seq [mk_frame_hash 1 "00ff"; mk_frame_hash 2 "0f0f"]
  = ev_seq [mk_frame_hash 5 "00ff"; mk_frame_hash 6 "0f0f"]
  /\ exists al, align_sequences [mk_frame_hash 1 "00ff"; mk_frame_hash 2 "0f0f"]
                  [mk_frame_hash 5 "00ff"; mk_frame_hash 6 "0f0f"] = Some (al, 0)
    /\ List.length al = List.length [mk_frame_hash 1 "00ff"; mk_frame_hash 2 "0f0f"]
    /\ high_similarity al = List.length [mk_frame_hash 1 "00ff"; mk_frame_hash 2 "0f0f"]
    /\ medium_similarity al = 0
    /\ low_similarity al = 0 /\ avg_substitution_similarity al = 0%Q
    /\ ([mk_frame_hash 1 "00ff"; mk_frame_hash 2 "0f0f"] <> [] ->
        min_similarity al = 100%Q /\ max_similarity al = 100%Q
        /\ (avg_similarity al == 100)%Q).
Proof.
  split; [reflexivity|]. apply identical_sequences_statistics. reflexivity.
Defined.

(** ** [extract_frames] and [analyze_video] *)

Section ExtractProofs.

Variable Image : Type.
Variable bgr_to_rgb : Image -> Image.
Variable phash_str : Image -> string.

(** The loop keeps the frames read before the first failed read. *)
Lemma extract_loop_spec (read : Z -> option Image) idxs : forall i,
  let fs := extract_loop Image bgr_to_rgb read i idxs in
  List.length fs <= List.length idxs
  /\ (forall p, p < List.length fs ->
        exists fr, read (nth p idxs 0%Z) = Some fr
          /\ nth_error fs p
             = Some (mk_frame (nth p idxs 0%Z + 1) (i + Z.of_nat p + 1) (bgr_to_rgb fr)))
  /\ (List.length fs < List.length idxs -> read (nth (List.length fs) idxs 0%Z) = None).
Proof.
  induction idxs as [|x idxs IH]; intros i; cbn zeta; cbn [extract_loop].
  { split; [simpl; lia|]. split; [intros p Hp; simpl in Hp; lia|]. simpl; lia. }
  destruct (read x) as [fr|] eqn:Ex.
  - destruct (IH (i + 1)%Z) as (H1 & H2 & H3). cbn zeta in H1, H2, H3.
    split; [simpl; lia|]. split.
    + intros [|p] Hp.
      * exists fr. simpl. split; [exact Ex|]. rewrite Z.add_0_r. reflexivity.
      * simpl in Hp. destruct (H2 p ltac:(lia)) as (fr' & Hr & Hn).
        exists fr'. simpl. split; [exact Hr|]. rewrite Hn. do 3 f_equal. lia.
    + simpl. intros Hl. apply H3. lia.
  - split; [simpl; lia|]. split; [intros p Hp; simpl in Hp; lia|]. intros _. exact Ex.
Qed.

Lemma extract_loop_seq (read : Z -> option Image) n : forall s,
  let fs := extract_loop Image bgr_to_rgb read (Z.of_nat s) (map Z.of_nat (seq s n)) in
  map (f_frame_number Image) fs = map (fun p => Z.of_nat p + 1)%Z (seq s (List.length fs))
  /\ map (extracted_index Image) fs = map (fun p => Z.of_nat p + 1)%Z (seq s (List.length fs)).
Proof.
  induction n as [|n IH]; intros s; cbn zeta; [split; reflexivity|].
  cbn [seq map extract_loop]. destruct (read (Z.of_nat s)); [|split; reflexivity].
  assert (E : (Z.of_nat s + 1)%Z = Z.of_nat (S s)) by lia.
  destruct (IH (S s)) as [H1 H2]. cbn zeta in H1, H2.
  cbn [map List.length seq f_frame_number extracted_index]. rewrite E, H1, H2.
  split; reflexivity.
Qed.

Lemma zrange_length n : List.length (zrange n) = Z.to_nat n.
Proof. unfold zrange. rewrite length_map. apply length_seq. Qed.

Lemma zrange_nonpos n : (n <= 0)%Z -> zrange n = [].
Proof. intros H. unfold zrange. replace (Z.to_nat n) with 0 by lia. reflexivity. Qed.

(** Targets for which every frame position is visited in order. *)
Lemma frame_indices_all total t :
  (t = None \/ exists k, t = Some k /\ (total <= k)%Z) ->
  frame_indices total t = Ok (zrange total).
Proof.
  intros [-> | [k [-> Hk]]]; [reflexivity|]. unfold frame_indices.
  rewrite Z.min_r by exact Hk. rewrite Z.eqb_refl. reflexivity.
Qed.

Lemma target_of_max_frames_all total mf :
  (mf = None \/ mf = Some 0%Z \/ exists k, mf = Some k /\ (total <= k)%Z) ->
  target_of_max_frames mf = None
  \/ exists k, target_of_max_frames mf = Some k /\ (total <= k)%Z.
Proof.
  intros [-> | [-> | [k [-> Hk]]]]; [left; reflexivity|left; reflexivity|].
  unfold target_of_max_frames. destruct (k =? 0)%Z; [left; reflexivity|right; eauto].
Qed.

End ExtractProofs.

(** ** [calculate_hash] *)

Lemma feed_concat (blocks : list (list Byte.byte)) acc :
  fold_left (fun fed byte_block => fed ++ byte_block) blocks acc = acc ++ List.concat blocks.
Proof.
  revert acc; induction blocks as [|b blocks IH]; intros acc; simpl.
  - rewrite app_nil_r. reflexivity.
  - rewrite IH, app_assoc. reflexivity.
Qed.

Lemma progress_concat (blocks : list (list Byte.byte)) acc :
  fold_left (fun adv byte_block => adv + List.length byte_block) blocks acc
  = acc + List.length (List.concat blocks).
Proof.
  revert acc; induction blocks as [|b blocks IH]; intros acc; simpl; [lia|].
  rewrite IH, length_app. lia.
Qed.

Lemma firstn_4096_length (l : list Byte.byte) :
  List.length (firstn 4096 l) = Nat.min 4096 (List.length l).
Proof. apply length_firstn. Qed.

Lemma firstn_skipn_length {A} n (l : list A) :
  firstn n l ++ skipn (List.length (firstn n l)) l = l.
Proof.
  rewrite length_firstn. destruct (Nat.le_gt_cases n (List.length l)) as [H|H].
  - rewrite Nat.min_l by exact H. apply firstn_skipn.
  - rewrite Nat.min_r by lia. rewrite firstn_all2 by lia. rewrite skipn_all. apply app_nil_r.
Qed.

Lemma read_blocks_spec fuel : forall rest,
  List.length rest <= fuel * 4096 ->
  let bs := read_blocks fuel rest in
  List.concat bs = rest
  /\ Forall (fun b => 1 <= List.length b <= 4096) bs
  /\ Forall (fun b => List.length b = 4096) (removelast bs)
  /\ List.length bs = (List.length rest + 4095) / 4096.
Proof.
  induction fuel as [|fuel IH]; intros rest Hl; cbn zeta.
  { destruct rest; [|simpl in Hl; lia]. repeat split; constructor. }
  cbn [read_blocks].
  destruct rest as [|x r] eqn:Er.
  { simpl. repeat split; constructor. }
  rewrite <- Er in *.
  assert (Hne : firstn 4096 rest <> []).
  { rewrite Er. simpl. discriminate. }
  destruct (firstn 4096 rest) as [|y b] eqn:Eb; [congruence|].
  rewrite <- Eb.
  pose proof (firstn_4096_length rest) as Hb. rewrite Eb in Hb. rewrite <- Eb in Hb.
  assert (Hlr : List.length rest = S (List.length r)) by (rewrite Er; reflexivity).
  assert (Hsk : List.length (skipn (List.length (firstn 4096 rest)) rest)
                = List.length rest - Nat.min 4096 (List.length rest))
    by (rewrite length_skipn, Hb; reflexivity).
  destruct (IH (skipn (List.length (firstn 4096 rest)) rest) ltac:(lia)) as (C & F1 & F2 & L).
  rewrite Hsk in L.
  split; [|split; [|split]].
  - cbn [List.concat]. rewrite C. apply firstn_skipn_length.
  - constructor; [|exact F1]. rewrite Hb. lia.
  - destruct (read_blocks fuel (skipn (List.length (firstn 4096 rest)) rest)) as [|b' bs'] eqn:Ebs.
    + constructor.
    + cbn [removelast]. constructor; [|exact F2].
      cbn [List.length] in L. rewrite Hb.
      destruct (Nat.le_gt_cases 4096 (List.length rest)) as [Hge|Hlt]; [lia|].
      replace (List.length rest - Nat.min 4096 (List.length rest)) with 0 in L by lia.
      simpl in L. discriminate.
  - cbn [List.length]. rewrite L.
    destruct (Nat.le_gt_cases 4096 (List.length rest)) as [Hge|Hlt].
    + replace (List.length rest + 4095) with (1 * 4096 + (List.length rest - 4096 + 4095)) by lia.
      rewrite Nat.div_add_l by lia. replace (Nat.min 4096 (List.length rest)) with 4096 by lia.
      reflexivity.
    + replace (List.length rest - Nat.min 4096 (List.length rest) + 4095) with 4095 by lia.
      replace (List.length rest + 4095) with (1 * 4096 + (List.length rest - 1)) by lia.
      rewrite Nat.div_add_l by lia. rewrite !Nat.div_small by lia. reflexivity.
Qed.

Lemma file_blocks_spec content :
  let bs := file_blocks content in
  List.concat bs = content
  /\ Forall (fun b => 1 <= List.length b <= 4096) bs
  /\ Forall (fun b => List.length b = 4096) (removelast bs)
  /\ List.length bs = (List.length content + 4095) / 4096.
Proof. apply read_blocks_spec. lia. Qed.

(** X17: [extract_frames] returns the frames read at the chosen positions, in
    order, up to the first position that cannot be read; frame [p] has
    [frame_number = idx + 1] and [extracted_index = p + 1]. *)
Theorem extract_frames_prefix (Image : Type) (bgr_to_rgb : Image -> Image)
  (v : video Image) (t : option Z) (frames : list (frame Image)) :
  extract_frames Image bgr_to_rgb v t = Ok frames ->
  exists idxs, frame_indices (frame_count Image v) t = Ok idxs
    /\ List.length frames <= List.length idxs
    /\ (forall p, p < List.length frames ->
          exists fr, read_at Image v (nth p idxs 0%Z) = Some fr
            /\ nth_error frames p
               = Some (mk_frame (nth p idxs 0%Z + 1) (Z.of_nat p + 1) (bgr_to_rgb fr)))
    /\ (List.length frames < List.length idxs ->
          read_at Image v (nth (List.length frames) idxs 0%Z) = None).
Proof.
  unfold extract_frames. destruct (negb (path_exists Image v)); [discriminate|].
  destruct (negb (is_opened Image v)); [discriminate|].
  destruct (frame_indices (frame_count Image v) t) as [idxs|e]; [|discriminate].
  intros H; injection H as <-. exists idxs. split; [reflexivity|].
  exact (extract_loop_spec Image bgr_to_rgb (read_at Image v) idxs 0%Z).
Qed.

Lemma extract_frames_prefix_witness :
  extract_frames unit (fun x => x)
    (mk_video "a.mp4"%string true true 3%Z S754_nan
       (fun k => if (k <? 2)%Z then Some tt else None)) None
  = Ok [mk_frame 1%Z 1%Z tt; mk_frame 2%Z 2%Z tt]
  /\ exists idxs, frame_indices 3%Z None = Ok idxs
    /\ List.length [mk_frame 1%Z 1%Z tt; mk_frame 2%Z 2%Z tt] <= List.length idxs
    /\ (forall p, p < 2 ->
          exists fr, (fun k => if (k <? 2)%Z then Some tt else None) (nth p idxs 0%Z) = Some fr
            /\ nth_error [mk_frame 1%Z 1%Z tt; mk_frame 2%Z 2%Z tt] p
               = Some (mk_frame (nth p idxs 0%Z + 1) (Z.of_nat p + 1) fr))
    /\ (2 < List.length idxs ->
          (fun k => if (k <? 2)%Z then Some tt else None) (nth 2 idxs 0%Z) = None).
Proof.
  split; [reflexivity|].
  exact (extract_frames_prefix unit (fun x => x)
    (mk_video "a.mp4"%string true true 3%Z S754_nan
       (fun k => if (k <? 2)%Z then Some tt else None)) None
    [mk_frame 1%Z 1%Z tt; mk_frame 2%Z 2%Z tt] eq_refl).
Defined.

(** X18: without a frame limit ([max_frames] absent or 0) or with one at
    least the frame count, the analysed frames are numbered [1, 2, ..., k]
    in both [frame_number] and [extracted_index], [k] is at most the frame
    count and [extracted_frames = k]. *)
Theorem analyze_video_all_frames (Image : Type) (bgr_to_rgb : Image -> Image)
  (phash_str : Image -> string) (v : video Image) (max_frames : option Z) (a : analysis) :
  (max_frames = None \/ max_frames = Some 0%Z
   \/ exists k, max_frames = Some k /\ (frame_count Image v <= k)%Z) ->
  analyze_video Image bgr_to_rgb phash_str v (target_of_max_frames max_frames) = Ok a ->
  map h_frame_number (frame_hashes a)
    = map (fun p => Z.of_nat p + 1)%Z (seq 0 (List.length (frame_hashes a)))
  /\ map h_extracted_index (frame_hashes a)
    = map (fun p => Z.of_nat p + 1)%Z (seq 0 (List.length (frame_hashes a)))
  /\ List.length (frame_hashes a) <= Z.to_nat (frame_count Image v)
  /\ extracted_frames a = Z.of_nat (List.length (frame_hashes a))
  /\ analysis_path a = video_path Image v.
Proof.
  intros Hmf. unfold analyze_video.
  destruct (get_video_info Image v) as [info|e]; [|discriminate].
  destruct (extract_frames Image bgr_to_rgb v (target_of_max_frames max_frames))
    as [frames|e] eqn:Ef; [|discriminate].
  intros H; injection H as <-. cbn [frame_hashes extracted_frames analysis_path].
  unfold extract_frames in Ef.
  destruct (negb (path_exists Image v)); [discriminate|].
  destruct (negb (is_opened Image v)); [discriminate|].
  rewrite frame_indices_all in Ef by (apply target_of_max_frames_all; exact Hmf).
  injection Ef as <-.
  destruct (extract_loop_spec Image bgr_to_rgb (read_at Image v)
              (zrange (frame_count Image v)) 0%Z) as (H1 & _ & _).
  cbn zeta in H1. rewrite zrange_length in H1.
  destruct (extract_loop_seq Image bgr_to_rgb (read_at Image v) (Z.to_nat (frame_count Image v)) 0)
    as [Hn Hx].
  cbn zeta in Hn, Hx. change (Z.of_nat 0) with 0%Z in Hn, Hx. fold (zrange (frame_count Image v)) in Hn, Hx.
  unfold calculate_frame_hashes. rewrite !map_map, length_map. cbn [h_frame_number h_extracted_index].
  split; [exact Hn|]. split; [exact Hx|]. split; [exact H1|]. split; reflexivity.
Qed.

Lemma analyze_video_all_frames_witness :
  exists a, analyze_video unit (fun x => x) (fun _ => "0"%string)
              (mk_video "a.mp4"%string true true 3%Z S754_nan (fun _ => Some tt)) None = Ok a
  /\ map h_frame_number (frame_hashes a)
    = map (fun p => Z.of_nat p + 1)%Z (seq 0 (List.length (frame_hashes a)))
  /\ map h_extracted_index (frame_hashes a)
    = map (fun p => Z.of_nat p + 1)%Z (seq 0 (List.length (frame_hashes a)))
  /\ List.length (frame_hashes a) <= Z.to_nat 3
  /\ extracted_frames a = Z.of_nat (List.length (frame_hashes a))
  /\ analysis_path a = "a.mp4"%string.
Proof.
  eexists. split; [reflexivity|].
  apply (analyze_video_all_frames unit (fun x => x) (fun _ => "0"%string)
           (mk_video "a.mp4"%string true true 3%Z S754_nan (fun _ => Some tt)) None).
  - left; reflexivity.
  - reflexivity.
Defined.

(** X19: a missing path gives [FileNotFoundError] and an unopenable video
    [ValueError], in [extract_frames], [get_video_info] and
    [analyze_video]; a target of 0 frames on a non-empty video gives
    [ZeroDivisionError]; a video of 0 frames gives no frames for any
    target. *)
Theorem extract_frames_edge_cases (Image : Type) (bgr_to_rgb : Image -> Image)
  (phash_str : Image -> string) (v : video Image) (t : option Z) :
  (path_exists Image v = false ->
     extract_frames Image bgr_to_rgb v t = Err FileNotFoundError
     /\ get_video_info Image v = Err FileNotFoundError
     /\ analyze_video Image bgr_to_rgb phash_str v t = Err FileNotFoundError)
  /\ (path_exists Image v = true -> is_opened Image v = false ->
     extract_frames Image bgr_to_rgb v t = Err ValueError
     /\ get_video_info Image v = Err ValueError
     /\ analyze_video Image bgr_to_rgb phash_str v t = Err ValueError)
  /\ (path_exists Image v = true -> is_opened Image v = true -> (0 < frame_count Image v)%Z ->
     extract_frames Image bgr_to_rgb v (Some 0%Z) = Err ZeroDivisionError)
  /\ (path_exists Image v = true -> is_opened Image v = true -> frame_count Image v = 0%Z ->
     extract_frames Image bgr_to_rgb v t = Ok []
     /\ exists a, analyze_video Image bgr_to_rgb phash_str v t = Ok a
       /\ extracted_frames a = 0%Z /\ frame_hashes a = []).
Proof.
  assert (Hz : path_exists Image v = true -> is_opened Image v = true ->
               frame_count Image v = 0%Z -> extract_frames Image bgr_to_rgb v t = Ok []).
  { intros Hp Ho Hc. unfold extract_frames. rewrite Hp, Ho, Hc. cbn [negb].
    unfold frame_indices. destruct t as [k|]; [|reflexivity].
    destruct (Z.le_gt_cases 0 k) as [Hk|Hk].
    - rewrite Z.min_r by exact Hk. reflexivity.
    - rewrite Z.min_l by lia. replace (k =? 0)%Z with false by (symmetry; apply Z.eqb_neq; lia).
      unfold int_truediv. replace (k =? 0)%Z with false by (symmetry; apply Z.eqb_neq; lia).
      cbn [Z.abs]. rewrite zrange_nonpos by lia. reflexivity. }
  split; [|split; [|split]].
  - intros Hp. unfold analyze_video, get_video_info, extract_frames. rewrite Hp.
    repeat split; reflexivity.
  - intros Hp Ho. unfold analyze_video, get_video_info, extract_frames. rewrite Hp, Ho.
    repeat split; reflexivity.
  - intros Hp Ho Hc. unfold extract_frames. rewrite Hp, Ho. cbn [negb].
    unfold frame_indices. rewrite Z.min_l by lia.
    replace (0 =? frame_count Image v)%Z with false by (symmetry; apply Z.eqb_neq; lia).
    reflexivity.
  - intros Hp Ho Hc. split; [exact (Hz Hp Ho Hc)|].
    unfold analyze_video. rewrite (Hz Hp Ho Hc).
    unfold get_video_info. rewrite Hp, Ho, Hc. cbn [negb].
    destruct (SFltb (S754_zero false) (video_fps Image v)); eexists; (split; [reflexivity|split; reflexivity]).
Qed.

(** X20: [calculate_hash] is [FileNotFoundError] for a missing file and
    otherwise the digest of exactly the file's content. *)
Theorem calculate_hash_content (hexdigest : CryptoAlgorithm -> list Byte.byte -> string)
  (algorithm : CryptoAlgorithm) (fs : string -> option (list Byte.byte)) (file_path : string) :
  calculate_hash hexdigest algorithm fs file_path
  = match fs file_path with
    | None => Err FileNotFoundError
    | Some content => Ok (hexdigest algorithm content)
    end.
Proof.
  unfold calculate_hash. destruct (fs file_path) as [content|]; [|reflexivity].
  unfold feed. rewrite feed_concat. cbn [app].
  destruct (file_blocks_spec content) as [C _]. rewrite C. reflexivity.
Qed.

(** X21: the blocks read by [calculate_hash] concatenate to the content, hold
    1 to 4096 bytes, 4096 for all but the last, number
    [ceil(len / 4096)], and the progress advances by the content's length. *)
Theorem file_blocks_partition (content : list Byte.byte) :
  List.concat (file_blocks content) = content
  /\ Forall (fun b => 1 <= List.length b <= 4096) (file_blocks content)
  /\ Forall (fun b => List.length b = 4096) (removelast (file_blocks content))
  /\ List.length (file_blocks content) = (List.length content + 4095) / 4096
  /\ progress_advance (file_blocks content) = List.length content.
Proof.
  destruct (file_blocks_spec content) as (C & F1 & F2 & L).
  split; [exact C|]. split; [exact F1|]. split; [exact F2|]. split; [exact L|].
  unfold progress_advance. rewrite progress_concat, C. reflexivity.
Qed.
